(** * Rackspace Spot exporter: collector, API client and collection loop

    A shallow embedding of [src/collector.ts], [src/api-client.ts] and the
    collection loop of [index.ts], with the properties of the design
    document proved (or refuted) on it.

    Conventions.
    - A JavaScript value that may be [undefined] or [null] is an
      [optional]; [a?.b] is [opt_chain], [a || d] is one of the [or_*]
      functions, by the type of [a] (falsy coercion differs per type).
    - JSON numbers that the API schema declares as integers are [Z].
    - [Date.now()] is a [Z] number of milliseconds.
    - The prom-client registry is a finite map from a metric name and a
      label set to the current value of that sample.
    - An [async] function that can reject returns a [result]. *)

From stdpp Require Import gmap strings list fin_maps pretty.
From Stdlib Require Import ZArith Lia.

Local Open Scope Z_scope.
Local Open Scope string_scope.
Local Open Scope list_scope.

(** ** JavaScript values *)

Inductive optional (A : Type) : Type :=
  | undefined
  | null
  | val (a : A).
Arguments undefined {A}.
Arguments null {A}.
Arguments val {A} a.

(** [o?.f]: property access that short-circuits to [undefined]. *)
Definition opt_chain {A B : Type} (o : optional A) (f : A → optional B) : optional B :=
  match o with
  | val a => f a
  | _ => undefined
  end.

Notation "o ?. f" := (opt_chain o f) (at level 25, left associativity, format "o ?. f").

(** [o || d] at type string: [undefined], [null] and the empty string are falsy. *)
Definition or_string (o : optional string) (d : string) : string :=
  match o with
  | val s => if decide (s = EmptyString) then d else s
  | _ => d
  end.

(** [o || d] at type number: [undefined], [null] and [0] are falsy. *)
Definition or_number (o : optional Z) (d : Z) : Z :=
  match o with
  | val n => if decide (n = 0) then d else n
  | _ => d
  end.

(** [o || d] at an object type: every object, also an empty one, is truthy. *)
Definition or_object {A : Type} (o : optional A) (d : A) : A :=
  match o with
  | val a => a
  | _ => d
  end.

(** Truthiness of a [string | null] slot. *)
Definition truthy_string (o : option string) : bool :=
  match o with
  | Some s => if decide (s = EmptyString) then false else true
  | None => false
  end.

(** A rejected promise or thrown exception: [new Error(message)]. *)
Record Error := { message : string }.

Inductive result (A : Type) : Type :=
  | Ok (a : A)
  | Err (e : Error).
Arguments Ok {A} a.
Arguments Err {A} e.

Definition is_err {A : Type} (r : result A) : bool :=
  match r with
  | Ok _ => false
  | Err _ => true
  end.

(** ** Resource items ([src/api-types.ts]) *)

(** Modelled from the spec: [src/api-types.ts] (generated from the OpenAPI
    document) is not among the sources; the records below carry the fields
    that [collector.ts] reads, every one of them optional as section 3 of
    the design document says. The value type of [assignedServers] is kept
    as the raw text of each entry: the collector only counts the keys. *)
Record AssignedServer := { server_json : string }.

Record ObjectMeta := { name : optional string }.

Record CloudSpaceSpec := { region : optional string }.

Record CloudSpaceStatus := { assignedServers : optional (gmap string AssignedServer) }.

Record CloudSpace := {
  cs_metadata : optional ObjectMeta;
  cs_spec : optional CloudSpaceSpec;
  cs_status : optional CloudSpaceStatus;
}.

Record NodePoolSpec := {
  cloudSpace : optional string;
  serverClass : optional string;
  desired : optional Z;
}.

Record SpotNodePoolStatus := {
  wonCount : optional Z;
  bidStatus : optional string;
}.

Record SpotNodePool := {
  sp_metadata : optional ObjectMeta;
  sp_spec : optional NodePoolSpec;
  sp_status : optional SpotNodePoolStatus;
}.

Record OnDemandNodePoolStatus := {
  reservedCount : optional Z;
  reservedStatus : optional string;
}.

Record OnDemandNodePool := {
  od_metadata : optional ObjectMeta;
  od_spec : optional NodePoolSpec;
  od_status : optional OnDemandNodePoolStatus;
}.

(** The body of a list response: [{ items?: T[] }]. *)
Record ItemList (T : Type) := { items : optional (list T) }.
Arguments items {T} _.

(** What one [client.list...] call gave: a rejection, or the (possibly
    [null] or [undefined]) response body. *)
Definition ListOutcome (T : Type) : Type := result (optional (ItemList T)).

(** ** The registry *)

(** A label set, in the order of the gauge's [labelNames]. *)
Definition Labels : Type := list (string * string).

(** A sample is identified by its metric name and its label set. *)
Definition SampleKey : Type := string * Labels.

Abbreviation Registry := (gmap SampleKey Z).

(** [gauge.set(labels, value)]: last write wins for a label combination. *)
Definition gauge_set (metric : string) (labels : Labels) (value : Z)
    (reg : Registry) : Registry :=
  <[(metric, labels) := value]> reg.

Definition cloudspaceNodesGauge : string := "rackspace_spot_cloudspace_nodes_total".
Definition spotNodePoolDesiredGauge : string := "rackspace_spot_spotnodepool_desired".
Definition spotNodePoolWonCountGauge : string := "rackspace_spot_spotnodepool_won_count".
Definition onDemandNodePoolDesiredGauge : string := "rackspace_spot_ondemandnodepool_desired".
Definition onDemandNodePoolReservedCountGauge : string :=
  "rackspace_spot_ondemandnodepool_reserved_count".

(** ** The collector ([src/collector.ts]) *)

Module Collector.

(** The four constants of the cloudspace loop body. *)
Definition cs_name (c : CloudSpace) : string :=
  or_string (cs_metadata c ?. name) "unknown".

Definition cs_region (c : CloudSpace) : string :=
  or_string (cs_spec c ?. region) "unknown".

Definition cs_assignedServers (c : CloudSpace) : gmap string AssignedServer :=
  or_object (cs_status c ?. assignedServers) ∅.

(** [Object.keys(assignedServers).length] *)
Definition cs_nodeCount (c : CloudSpace) : Z :=
  Z.of_nat (size (cs_assignedServers c)).

Definition cs_labels (organization : string) (c : CloudSpace) : Labels :=
  [("namespace", organization); ("cloudspace", cs_name c);
   ("cloudspace_region", cs_region c)].

(** One iteration of the loop of [collectCloudSpaceMetrics]. *)
Definition cloudSpace_step (organization : string) (reg : Registry)
    (c : CloudSpace) : Registry :=
  gauge_set cloudspaceNodesGauge (cs_labels organization c) (cs_nodeCount c) reg.

Definition collectCloudSpaceMetrics (organization : string)
    (listed : ListOutcome CloudSpace) (reg : Registry) : result unit * Registry :=
  match listed with
  | Err e => (Err e, reg)
  | Ok cloudSpaces =>
      match cloudSpaces ?. items with
      | val its => (Ok tt, foldl (cloudSpace_step organization) reg its)
      | _ => (Ok tt, reg)
      end
  end.

(** The constants of the spot node pool loop body. *)
Definition sp_name (p : SpotNodePool) : string :=
  or_string (sp_metadata p ?. name) "unknown".
Definition sp_cloudSpace (p : SpotNodePool) : string :=
  or_string (sp_spec p ?. cloudSpace) "unknown".
Definition sp_serverClass (p : SpotNodePool) : string :=
  or_string (sp_spec p ?. serverClass) "unknown".
Definition sp_desired (p : SpotNodePool) : Z :=
  or_number (sp_spec p ?. desired) 0.
Definition sp_wonCount (p : SpotNodePool) : Z :=
  or_number (sp_status p ?. wonCount) 0.
Definition sp_bidStatus (p : SpotNodePool) : string :=
  or_string (sp_status p ?. bidStatus) "unknown".

Definition sp_desired_labels (organization : string) (p : SpotNodePool) : Labels :=
  [("namespace", organization); ("cloudspace", sp_cloudSpace p);
   ("nodepool", sp_name p); ("serverclass", sp_serverClass p)].

Definition sp_won_labels (organization : string) (p : SpotNodePool) : Labels :=
  [("namespace", organization); ("cloudspace", sp_cloudSpace p);
   ("nodepool", sp_name p); ("serverclass", sp_serverClass p);
   ("bid_status", sp_bidStatus p)].

Definition spotNodePool_step (organization : string) (reg : Registry)
    (p : SpotNodePool) : Registry :=
  gauge_set spotNodePoolWonCountGauge (sp_won_labels organization p) (sp_wonCount p)
    (gauge_set spotNodePoolDesiredGauge (sp_desired_labels organization p)
       (sp_desired p) reg).

Definition collectSpotNodePoolMetrics (organization : string)
    (listed : ListOutcome SpotNodePool) (reg : Registry) : result unit * Registry :=
  match listed with
  | Err e => (Err e, reg)
  | Ok spotNodePools =>
      match spotNodePools ?. items with
      | val its => (Ok tt, foldl (spotNodePool_step organization) reg its)
      | _ => (Ok tt, reg)
      end
  end.

(** The constants of the on-demand node pool loop body. *)
Definition od_name (p : OnDemandNodePool) : string :=
  or_string (od_metadata p ?. name) "unknown".
Definition od_cloudSpace (p : OnDemandNodePool) : string :=
  or_string (od_spec p ?. cloudSpace) "unknown".
Definition od_serverClass (p : OnDemandNodePool) : string :=
  or_string (od_spec p ?. serverClass) "unknown".
Definition od_desired (p : OnDemandNodePool) : Z :=
  or_number (od_spec p ?. desired) 0.
Definition od_reservedCount (p : OnDemandNodePool) : Z :=
  or_number (od_status p ?. reservedCount) 0.
Definition od_reservedStatus (p : OnDemandNodePool) : string :=
  or_string (od_status p ?. reservedStatus) "unknown".

Definition od_desired_labels (organization : string) (p : OnDemandNodePool) : Labels :=
  [("namespace", organization); ("cloudspace", od_cloudSpace p);
   ("nodepool", od_name p); ("serverclass", od_serverClass p)].

Definition od_reserved_labels (organization : string) (p : OnDemandNodePool) : Labels :=
  [("namespace", organization); ("cloudspace", od_cloudSpace p);
   ("nodepool", od_name p); ("serverclass", od_serverClass p);
   ("reserved_status", od_reservedStatus p)].

Definition onDemandNodePool_step (organization : string) (reg : Registry)
    (p : OnDemandNodePool) : Registry :=
  gauge_set onDemandNodePoolReservedCountGauge (od_reserved_labels organization p)
    (od_reservedCount p)
    (gauge_set onDemandNodePoolDesiredGauge (od_desired_labels organization p)
       (od_desired p) reg).

Definition collectOnDemandNodePoolMetrics (organization : string)
    (listed : ListOutcome OnDemandNodePool) (reg : Registry) : result unit * Registry :=
  match listed with
  | Err e => (Err e, reg)
  | Ok onDemandNodePools =>
      match onDemandNodePools ?. items with
      | val its => (Ok tt, foldl (onDemandNodePool_step organization) reg its)
      | _ => (Ok tt, reg)
      end
  end.

(** What the three list calls of one pass gave. *)
Record Listed := {
  listed_cloudSpaces : ListOutcome CloudSpace;
  listed_spotNodePools : ListOutcome SpotNodePool;
  listed_onDemandNodePools : ListOutcome OnDemandNodePool;
}.

(** [Promise.all] over three settled outcomes: fulfilled when all three
    are, rejected otherwise (with the first rejection, here in array
    order). *)
Definition promise_all3 (a b c : result unit) : result unit :=
  match a, b, c with
  | Ok _, Ok _, Ok _ => Ok tt
  | Err e, _, _ => Err e
  | _, Err e, _ => Err e
  | _, _, Err e => Err e
  end.

(** [collect()]: the three family collectors are all started, each runs
    to its own end whatever the others do (a rejection of one does not
    stop the loops of the others), and the pass is rejected when one of
    them is; the [catch] logs and rethrows. The three families write to
    different gauges, so the order in which their loops run is
    immaterial; the registry is the one after all three have settled. *)
Definition collect (organization : string) (l : Listed) (reg : Registry)
    : result unit * Registry :=
  let '(r1, reg1) := collectCloudSpaceMetrics organization (listed_cloudSpaces l) reg in
  let '(r2, reg2) := collectSpotNodePoolMetrics organization (listed_spotNodePools l) reg1 in
  let '(r3, reg3) :=
    collectOnDemandNodePoolMetrics organization (listed_onDemandNodePools l) reg2 in
  (promise_all3 r1 r2 r3, reg3).

(** *** The writes of a pass, as data *)

(** One [gauge.set] call: the sample that it names and the value it
    gives to it. *)
Definition SetCall : Type := SampleKey * Z.

Definition apply_write (reg : Registry) (w : SetCall) : Registry :=
  <[w.1 := w.2]> reg.

Definition apply_writes (ws : list SetCall) (reg : Registry) : Registry :=
  foldl apply_write reg ws.

(** The value of the last write to [k] in [ws], if there is one. *)
Fixpoint last_write (k : SampleKey) (ws : list SetCall) : option Z :=
  match ws with
  | [] => None
  | w :: ws' =>
      match last_write k ws' with
      | Some v => Some v
      | None => if decide (w.1 = k) then Some w.2 else None
      end
  end.

Definition cloudSpace_writes (organization : string) (c : CloudSpace) : list SetCall :=
  [((cloudspaceNodesGauge, cs_labels organization c), cs_nodeCount c)].

Definition spotNodePool_writes (organization : string) (p : SpotNodePool) : list SetCall :=
  [((spotNodePoolDesiredGauge, sp_desired_labels organization p), sp_desired p);
   ((spotNodePoolWonCountGauge, sp_won_labels organization p), sp_wonCount p)].

Definition onDemandNodePool_writes (organization : string) (p : OnDemandNodePool)
    : list SetCall :=
  [((onDemandNodePoolDesiredGauge, od_desired_labels organization p), od_desired p);
   ((onDemandNodePoolReservedCountGauge, od_reserved_labels organization p),
    od_reservedCount p)].

(** The items a family collector iterates over: none when the call was
    rejected or the list is absent. *)
Definition listed_items {T : Type} (listed : ListOutcome T) : list T :=
  match listed with
  | Err _ => []
  | Ok body =>
      match body ?. items with
      | val its => its
      | _ => []
      end
  end.

Definition family_writes {T : Type} (writes : T → list SetCall) (listed : ListOutcome T)
    : list SetCall :=
  flat_map writes (listed_items listed).

(** All the [gauge.set] calls of one pass. *)
Definition pass_writes (organization : string) (l : Listed) : list SetCall :=
  family_writes (cloudSpace_writes organization) (listed_cloudSpaces l)
  ++ family_writes (spotNodePool_writes organization) (listed_spotNodePools l)
  ++ family_writes (onDemandNodePool_writes organization) (listed_onDemandNodePools l).

(** The label combinations present in a pass. *)
Definition pass_keys (organization : string) (l : Listed) : list SampleKey :=
  (pass_writes organization l).*1.

(** How a family collector settles: as its list call did. *)
Definition settled {T : Type} (listed : ListOutcome T) : result unit :=
  match listed with
  | Ok _ => Ok tt
  | Err e => Err e
  end.

(** A field that is not there: [undefined] or [null]. *)
Definition missing {A : Type} (o : optional A) : Prop :=
  match o with
  | val _ => False
  | _ => True
  end.

(** A list response with no items to iterate over: no body, no [items],
    or an empty array. *)
Definition no_items {T : Type} (listed : ListOutcome T) : Prop :=
  match listed with
  | Err _ => False
  | Ok body =>
      match body ?. items with
      | val its => its = []
      | _ => True
      end
  end.

(** A pass is complete when none of its three list calls was rejected. *)
Definition complete (l : Listed) : bool :=
  negb (is_err (listed_cloudSpaces l))
  && negb (is_err (listed_spotNodePools l))
  && negb (is_err (listed_onDemandNodePools l)).

(** *** The [set] calls of one loop iteration, spelled out *)

(** The one [set] call made for a cloudspace, by the values of its two
    labels and its node count. *)
Definition cloudspace_set (organization cloudspace region : string) (nodes : Z)
    (reg : Registry) : Registry :=
  gauge_set "rackspace_spot_cloudspace_nodes_total"
    [("namespace", organization); ("cloudspace", cloudspace);
     ("cloudspace_region", region)]
    nodes reg.

(** The two [set] calls made for a spot node pool, the desired count
    first. *)
Definition spot_pool_sets (organization cloudspace nodepool serverclass bid_status : string)
    (desired_count won_count : Z) (reg : Registry) : Registry :=
  gauge_set "rackspace_spot_spotnodepool_won_count"
    [("namespace", organization); ("cloudspace", cloudspace); ("nodepool", nodepool);
     ("serverclass", serverclass); ("bid_status", bid_status)]
    won_count
    (gauge_set "rackspace_spot_spotnodepool_desired"
       [("namespace", organization); ("cloudspace", cloudspace); ("nodepool", nodepool);
        ("serverclass", serverclass)]
       desired_count reg).

(** The two [set] calls made for an on-demand node pool, the desired
    count first. *)
Definition ondemand_pool_sets
    (organization cloudspace nodepool serverclass reserved_status : string)
    (desired_count reserved_count : Z) (reg : Registry) : Registry :=
  gauge_set "rackspace_spot_ondemandnodepool_reserved_count"
    [("namespace", organization); ("cloudspace", cloudspace); ("nodepool", nodepool);
     ("serverclass", serverclass); ("reserved_status", reserved_status)]
    reserved_count
    (gauge_set "rackspace_spot_ondemandnodepool_desired"
       [("namespace", organization); ("cloudspace", cloudspace); ("nodepool", nodepool);
        ("serverclass", serverclass)]
       desired_count reg).

(** *** Family collectors of several passes *)

(** One run of a family collector: the list call that it awaits has
    settled and its loop, which awaits nothing, has run to its end. *)
Inductive Settlement :=
  | CloudSpacesSettled (listed : ListOutcome CloudSpace)
  | SpotNodePoolsSettled (listed : ListOutcome SpotNodePool)
  | OnDemandNodePoolsSettled (listed : ListOutcome OnDemandNodePool).

Definition settle (organization : string) (reg : Registry) (s : Settlement) : Registry :=
  match s with
  | CloudSpacesSettled listed => (collectCloudSpaceMetrics organization listed reg).2
  | SpotNodePoolsSettled listed => (collectSpotNodePoolMetrics organization listed reg).2
  | OnDemandNodePoolsSettled listed =>
      (collectOnDemandNodePoolMetrics organization listed reg).2
  end.

(** The registry after the family collectors of any number of passes
    have run, in the order in which their list calls settled. Nothing
    orders the collectors of different passes: [Promise.all] rejects at
    the first rejection, so a collector of a rejected pass may run after
    those of a later pass. *)
Definition settle_all (organization : string) (settlements : list Settlement)
    (reg : Registry) : Registry :=
  foldl (settle organization) reg settlements.

(** The [set] calls of one run of a family collector. *)
Definition settlement_writes (organization : string) (s : Settlement) : list SetCall :=
  match s with
  | CloudSpacesSettled listed => family_writes (cloudSpace_writes organization) listed
  | SpotNodePoolsSettled listed => family_writes (spotNodePool_writes organization) listed
  | OnDemandNodePoolsSettled listed =>
      family_writes (onDemandNodePool_writes organization) listed
  end.

End Collector.

(** ** Concrete responses, after [tests/collector.test.ts] *)

Module Scenarios.
Import Collector.

Definition org : string := "org-test".

(** The cloudspace of the test [should collect cloudspace metrics]. *)
Definition cloudspace_1 : CloudSpace :=
  {| cs_metadata := val {| name := val "cloudspace-1" |};
     cs_spec := val {| region := val "us-central-dfw-1" |};
     cs_status :=
       val {| assignedServers :=
                val (<["server-1" := {| server_json := "{}" |}]>
                       (<["server-2" := {| server_json := "{}" |}]> ∅)) |} |}.

(** The pool of the test [should collect spot node pool metrics], with
    the desired count left open. *)
Definition spot_pool_1 (want : Z) : SpotNodePool :=
  {| sp_metadata := val {| name := val "spot-pool-1" |};
     sp_spec := val {| cloudSpace := val "cloudspace-1";
                       serverClass := val "gp.vs1.small-dfw";
                       desired := val want |};
     sp_status := val {| wonCount := val 3; bidStatus := val "winning" |} |}.

(** The items of the test [should use default values for missing fields]. *)
Definition bare_cloudspace : CloudSpace :=
  {| cs_metadata := val {| name := undefined |};
     cs_spec := val {| region := undefined |};
     cs_status := val {| assignedServers := undefined |} |}.

Definition bare_spot_pool : SpotNodePool :=
  {| sp_metadata := val {| name := undefined |};
     sp_spec := val {| cloudSpace := undefined; serverClass := undefined;
                       desired := undefined |};
     sp_status := val {| wonCount := undefined; bidStatus := undefined |} |}.

Definition bare_ondemand_pool : OnDemandNodePool :=
  {| od_metadata := val {| name := undefined |};
     od_spec := val {| cloudSpace := undefined; serverClass := undefined;
                       desired := undefined |};
     od_status := val {| reservedCount := undefined; reservedStatus := undefined |} |}.

(** A spot pool whose fields are all present and all falsy. *)
Definition falsy_spot_pool : SpotNodePool :=
  {| sp_metadata := val {| name := val EmptyString |};
     sp_spec := val {| cloudSpace := val EmptyString; serverClass := val EmptyString;
                       desired := val 0 |};
     sp_status := val {| wonCount := null; bidStatus := val EmptyString |} |}.

Definition listing {T : Type} (its : list T) : ListOutcome T :=
  Ok (val {| items := val its |}).

(** A complete pass: one cloudspace and one spot pool that wants 5 nodes. *)
Definition pass_full : Listed :=
  {| listed_cloudSpaces := listing [cloudspace_1];
     listed_spotNodePools := listing [spot_pool_1 5];
     listed_onDemandNodePools := listing [] |}.

(** A pass whose cloudspace call is rejected (the test [should handle
    API errors]) while the spot pool now wants 7 nodes. *)
Definition pass_partial : Listed :=
  {| listed_cloudSpaces := Err {| message := "API Error" |};
     listed_spotNodePools := listing [spot_pool_1 7];
     listed_onDemandNodePools := listing [] |}.

(** The test [should handle empty responses]. *)
Definition pass_empty : Listed :=
  {| listed_cloudSpaces := listing [];
     listed_spotNodePools := listing [];
     listed_onDemandNodePools := listing [] |}.

(** The test [should handle null/undefined items]. *)
Definition pass_absent : Listed :=
  {| listed_cloudSpaces := Ok (val {| items := undefined |});
     listed_spotNodePools := Ok null;
     listed_onDemandNodePools := Ok undefined |}.

(** The test [should use default values for missing fields]. *)
Definition pass_bare : Listed :=
  {| listed_cloudSpaces := listing [bare_cloudspace];
     listed_spotNodePools := listing [bare_spot_pool];
     listed_onDemandNodePools := listing [bare_ondemand_pool] |}.

End Scenarios.

(** ** The API client ([src/api-client.ts]) *)

Module ApiClient.

Definition DEFAULT_API_BASE_URL : string := "https://spot.rackspace.com".
Definition DEFAULT_AUTH_BASE_URL : string := "https://login.spot.rackspace.com".
Definition PUBLIC_CLIENT_ID : string := "mwG3lUMV8KyeMqHe4fJ5Bb3nM1vBvRNa".

Record RackspaceSpotConfig := {
  cfg_refreshToken : string;
  cfg_apiBaseUrl : optional string;
  cfg_authBaseUrl : optional string;
}.

Record OAuthTokenResponse := {
  access_token : string;
  id_token : string;
  token_type : string;
  expires_in : Z;
  scope : string;
}.

(** The mutable fields of the class ([client] is the openapi-fetch
    instance, whose only state is the middleware below). *)
Record RackspaceSpotClient := {
  refreshToken : string;
  apiBaseUrl : string;
  authBaseUrl : string;
  accessToken : option string;
  tokenExpiry : Z;
}.

Definition constructor (config : RackspaceSpotConfig) : RackspaceSpotClient :=
  {| refreshToken := cfg_refreshToken config;
     apiBaseUrl := or_string (cfg_apiBaseUrl config) DEFAULT_API_BASE_URL;
     authBaseUrl := or_string (cfg_authBaseUrl config) DEFAULT_AUTH_BASE_URL;
     accessToken := None;
     tokenExpiry := 0 |}.

(** *** The network *)

(** A request that left the process. An [ApiGet] keeps the path template
    and the [namespace] path parameter apart. *)
Inductive Request :=
  | TokenPost (url : string) (contentType : string) (form : list (string * string))
  | ApiGet (baseUrl path namespace : string) (authorization : option string).

Definition is_token_exchange (rq : Request) : bool :=
  match rq with
  | TokenPost _ _ _ => true
  | ApiGet _ _ _ _ => false
  end.

(** Number of token exchanges among the requests of a trace. *)
Definition exchanges (trace : list Request) : nat :=
  length (filter (λ rq, is_token_exchange rq = true) trace).

(** The response of the token endpoint: [status], what [text()] gives
    and what [json()] gives (a rejection when the body is not JSON). *)
Record TokenResponse := {
  status : Z;
  text : string;
  json : result OAuthTokenResponse;
}.

(** [response.ok]: a status in the range 200 to 299. *)
Definition ok (response : TokenResponse) : bool :=
  bool_decide (200 ≤ status response ≤ 299)%Z.

(** An error body as openapi-fetch hands it over, by the two things the
    client does with it: test it for truthiness and [JSON.stringify] it. *)
Record ErrorBody := {
  error_truthy : bool;
  error_stringified : string;
}.

(** What [client.GET] resolves to. *)
Record GetResult (T : Type) := {
  data : optional (ItemList T);
  error : optional ErrorBody;
}.
Arguments data {T} _.
Arguments error {T} _.

(** Everything one list call can observe of the outside world. *)
Record Net (T : Type) := {
  now : Z;                            (* Date.now() in ensureAuthenticated *)
  token_fetch : result TokenResponse; (* fetch of the token endpoint, if issued *)
  token_now : Z;                      (* Date.now() in authenticate, body parsed *)
  api_fetch : result (GetResult T);   (* the GET, if it is sent *)
}.
Arguments now {T} _.
Arguments token_fetch {T} _.
Arguments token_now {T} _.
Arguments api_fetch {T} _.

(** *** Methods as computations over the client object *)

(** A method reads and writes the fields of [this], sends requests and
    may throw; what it wrote and sent before throwing stays. *)
Definition M (A : Type) : Type :=
  RackspaceSpotClient → result A * RackspaceSpotClient * list Request.

Definition ret {A : Type} (a : A) : M A := λ this, (Ok a, this, []).

Definition throw {A : Type} (e : Error) : M A := λ this, (Err e, this, []).

Definition bind {A B : Type} (k : A → M B) (m : M A) : M B := λ this,
  match m this with
  | (Ok a, this', sent) =>
      let '(r, this'', sent') := k a this' in (r, this'', sent ++ sent')
  | (Err e, this', sent) => (Err e, this', sent)
  end.

#[local] Instance M_ret : MRet M := @ret.
#[local] Instance M_bind : MBind M := @bind.

Definition get_this : M RackspaceSpotClient := λ this, (Ok this, this, []).

Definition send (rq : Request) : M unit := λ this, (Ok tt, this, [rq]).

(** [await p] for a promise that is already settled. *)
Definition await {A : Type} (p : result A) : M A := λ this, (p, this, []).

Definition set_token (token : string) (expiry : Z) : M unit := λ this,
  (Ok tt,
   {| refreshToken := refreshToken this;
      apiBaseUrl := apiBaseUrl this;
      authBaseUrl := authBaseUrl this;
      accessToken := Some token;
      tokenExpiry := expiry |},
   []).

(** The request of [authenticate]: a form-encoded POST. *)
Definition token_post (this : RackspaceSpotClient) : Request :=
  TokenPost (authBaseUrl this +:+ "/oauth/token")
    "application/x-www-form-urlencoded"
    [("grant_type", "refresh_token");
     ("client_id", PUBLIC_CLIENT_ID);
     ("refresh_token", refreshToken this)].

Definition authenticate {T : Type} (net : Net T) : M unit :=
  this ← get_this;
  send (token_post this);;
  response ← await (token_fetch net);
  if negb (ok response) then
    throw {| message := "Failed to authenticate: " +:+ pretty (status response)
                          +:+ " - " +:+ text response |}
  else
    data ← await (json response);
    set_token (id_token data) (token_now net + expires_in data * 1000).

Definition ensureAuthenticated {T : Type} (net : Net T) : M unit :=
  this ← get_this;
  if truthy_string (accessToken this)
     && bool_decide (now net < tokenExpiry this - 60000)
  then ret tt
  else authenticate net.

(** The [Authorization] header that the middleware puts on a request:
    none when [this.accessToken] is falsy. *)
Definition authorization_header (this : RackspaceSpotClient) : option string :=
  match accessToken this with
  | Some token => if decide (token = EmptyString) then None else Some ("Bearer " +:+ token)
  | None => None
  end.

(** [authMiddleware.onRequest]: the value of the [Authorization] header
    of the outgoing request. *)
Definition onRequest {T : Type} (net : Net T) : M (option string) :=
  ensureAuthenticated net;;
  this ← get_this;
  ret (authorization_header this).

(** [this.client.GET(path, { params: { path: { namespace } } })] *)
Definition GET {T : Type} (path namespace : string) (net : Net T) : M (GetResult T) :=
  authorization ← onRequest net;
  this ← get_this;
  send (ApiGet (apiBaseUrl this) path namespace authorization);;
  await (api_fetch net).

Definition list_with {T : Type} (path what namespace : string) (net : Net T)
    : M (optional (ItemList T)) :=
  r ← GET path namespace net;
  match error r with
  | val e =>
      if error_truthy e
      then throw {| message := "Failed to list " +:+ what +:+ ": " +:+ error_stringified e |}
      else ret (data r)
  | _ => ret (data r)
  end.

Definition listCloudSpaces (namespace : string) (net : Net CloudSpace)
    : M (optional (ItemList CloudSpace)) :=
  list_with "/apis/ngpc.rxt.io/v1/namespaces/{namespace}/cloudspaces"
    "cloudspaces" namespace net.

Definition listSpotNodePools (namespace : string) (net : Net SpotNodePool)
    : M (optional (ItemList SpotNodePool)) :=
  list_with "/apis/ngpc.rxt.io/v1/namespaces/{namespace}/spotnodepools"
    "spot node pools" namespace net.

Definition listOnDemandNodePools (namespace : string) (net : Net OnDemandNodePool)
    : M (optional (ItemList OnDemandNodePool)) :=
  list_with "/apis/ngpc.rxt.io/v1/namespaces/{namespace}/ondemandnodepools"
    "on-demand node pools" namespace net.

(** A cached token that can be reused at time [t]: there is one, it is
    not the empty string, and [t] is more than 60 s before its expiry. *)
Definition reusable (this : RackspaceSpotClient) (t : Z) : Prop :=
  (∃ token, accessToken this = Some token ∧ token ≠ EmptyString)
  ∧ t < tokenExpiry this - 60000.

(** *** Concrete exchanges, after [tests/api-client.test.ts] *)

Definition test_client : RackspaceSpotClient :=
  constructor {| cfg_refreshToken := "test-refresh-token";
                 cfg_apiBaseUrl := undefined;
                 cfg_authBaseUrl := undefined |}.

(** A 200 response of the token endpoint that carries [token] as its
    [id_token] and lasts a day. *)
Definition token_200 (token : string) : TokenResponse :=
  {| status := 200;
     text := "{...}";
     json := Ok {| access_token := "mock-access-token";
                   id_token := token;
                   token_type := "Bearer";
                   expires_in := 86400;
                   scope := "openid" |} |}.

(** The 401 response of the test [should throw on authentication failure]. *)
Definition token_401 : TokenResponse :=
  {| status := 401;
     text := "{error:Invalid refresh token}";
     json := Ok {| access_token := EmptyString; id_token := EmptyString;
                   token_type := EmptyString; expires_in := 0;
                   scope := EmptyString |} |}.

(** The world of a list call made at time [t]: the token endpoint
    answers [response] (the answer is there 200 ms later), the list
    endpoint answers with an empty list. *)
Definition world {T : Type} (t : Z) (response : TokenResponse) : Net T :=
  {| now := t;
     token_fetch := Ok response;
     token_now := t + 200;
     api_fetch := Ok {| data := val {| items := val [] |}; error := undefined |} |}.

End ApiClient.

(** ** The collection loop ([index.ts]) *)

Module Exporter.

(** What the loop writes to the console (time stamps left out). *)
Inductive LogLine :=
  | LogInitial                 (* Performing initial metrics collection... *)
  | LogSkipping                (* Collection already in progress, skipping... *)
  | LogCollected               (* Metrics collected successfully at ... *)
  | LogError (e : Error).      (* Error collecting metrics: ... *)

(** The module-level state of the loop. [pending] lists the passes in
    flight: those whose [collector.collect()] promise has been created
    and has not settled yet (the loop awaits nothing else; a list call
    that is still outstanding when [Promise.all] has already rejected is
    not awaited by anyone). [started] counts the passes created so far;
    [timer] tells whether [setInterval] has been reached. *)
Record Loop := {
  isCollecting : bool;
  pending : list nat;
  started : nat;
  timer : bool;
  console : list LogLine;
}.

(** [collectMetrics], from its entry up to its [await]: the event loop
    runs this part without interruption. *)
Definition collectMetrics_enter (s : Loop) : Loop :=
  if isCollecting s then
    {| isCollecting := isCollecting s;
       pending := pending s;
       started := started s;
       timer := timer s;
       console := console s ++ [LogSkipping] |}
  else
    {| isCollecting := true;
       pending := pending s ++ [started s];
       started := S (started s);
       timer := timer s;
       console := console s |}.

(** [collectMetrics], from the settlement of the awaited promise to its
    end: the [try] or the [catch] branch, then [finally]. *)
Definition collectMetrics_resume (pass : nat) (outcome : result unit) (s : Loop) : Loop :=
  {| isCollecting := false;
     pending := filter (λ p, p ≠ pass) (pending s);
     started := started s;
     timer := timer s;
     console := console s ++ [match outcome with
                              | Ok _ => LogCollected
                              | Err e => LogError e
                              end] |}.

(** The top level after [await collectMetrics()]: [setInterval]. *)
Definition setInterval (s : Loop) : Loop :=
  {| isCollecting := isCollecting s;
     pending := pending s;
     started := started s;
     timer := true;
     console := console s |}.

(** The state when the top level suspends at [await collectMetrics()]. *)
Definition boot : Loop :=
  collectMetrics_enter
    {| isCollecting := false; pending := []; started := 0%nat; timer := false;
       console := [LogInitial] |}.

(** What the event loop can deliver: a timer tick, or the settlement of
    the [collect()] promise of a pass. *)
Inductive Event :=
  | Tick
  | Settled (pass : nat) (outcome : result unit).

(** One turn of the event loop; [None] when the event cannot occur in
    this state (no timer installed yet, no such promise pending). *)
Definition step (s : Loop) (ev : Event) : option Loop :=
  match ev with
  | Tick => if timer s then Some (collectMetrics_enter s) else None
  | Settled pass outcome =>
      if bool_decide (pass ∈ pending s) then
        let s' := collectMetrics_resume pass outcome s in
        Some (if timer s' then s' else setInterval s')
      else None
  end.

Fixpoint run (s : Loop) (evs : list Event) : option Loop :=
  match evs with
  | [] => Some s
  | ev :: evs' =>
      match step s ev with
      | Some s' => run s' evs'
      | None => None
      end
  end.

(** A tick that finds a pass in flight: the state it leaves behind. *)
Definition skipped (s : Loop) : Loop :=
  {| isCollecting := isCollecting s;
     pending := pending s;
     started := started s;
     timer := timer s;
     console := console s ++ [LogSkipping] |}.

(** The flag tells whether a pass is in flight, and there is at most one. *)
Definition guarded (s : Loop) : Prop :=
  (isCollecting s = true ∧ ∃ pass, pending s = [pass])
  ∨ (isCollecting s = false ∧ pending s = []).

(** A history that ends with a tick during a pass: the initial pass
    settles, the first tick starts pass 1, the second tick finds it in
    flight. *)
Definition busy_history : list Event := [Settled 0 (Ok tt); Tick].

End Exporter.

(** ** The gauges of the collector (constructor of [src/collector.ts]) *)

Module Registration.

(** The configuration given to [new Gauge(...)]. *)
Record GaugeConfiguration := {
  gauge_name : string;
  gauge_help : string;
  labelNames : list string;
}.

(** The five gauges that the constructor creates and registers, in the
    order of the source. *)
Definition constructor_gauges : list GaugeConfiguration :=
  [ {| gauge_name := cloudspaceNodesGauge;
       gauge_help := "Total number of nodes in a cloudspace";
       labelNames := ["namespace"; "cloudspace"; "cloudspace_region"] |};
    {| gauge_name := spotNodePoolDesiredGauge;
       gauge_help := "Desired number of nodes in a spot node pool";
       labelNames := ["namespace"; "cloudspace"; "nodepool"; "serverclass"] |};
    {| gauge_name := spotNodePoolWonCountGauge;
       gauge_help := "Number of nodes won in a spot node pool";
       labelNames := ["namespace"; "cloudspace"; "nodepool"; "serverclass";
                      "bid_status"] |};
    {| gauge_name := onDemandNodePoolDesiredGauge;
       gauge_help := "Desired number of nodes in an on-demand node pool";
       labelNames := ["namespace"; "cloudspace"; "nodepool"; "serverclass"] |};
    {| gauge_name := onDemandNodePoolReservedCountGauge;
       gauge_help := "Number of reserved nodes in an on-demand node pool";
       labelNames := ["namespace"; "cloudspace"; "nodepool"; "serverclass";
                      "reserved_status"] |} ].

(** The label check of [gauge.set]: a label that the gauge was not
    created with makes it throw. *)
Definition labels_accepted (g : GaugeConfiguration) (labels : Labels) : bool :=
  forallb (λ label, bool_decide (label ∈ labelNames g)) labels.*1.

End Registration.

(** ** Several list calls, one after the other *)

Module Session.
Import ApiClient.

(** A caller that makes one list call per element of [nets], each after
    the previous one has settled, and goes on whatever the outcome of a
    call: the client it is left with and everything that was sent. *)
Fixpoint calls {T : Type} (path what namespace : string) (nets : list (Net T))
    (this : RackspaceSpotClient) : RackspaceSpotClient * list Request :=
  match nets with
  | [] => (this, [])
  | net :: rest =>
      let '(_, this', sent) := list_with path what namespace net this in
      let '(this'', sent') := calls path what namespace rest this' in
      (this'', sent ++ sent')
  end.

End Session.

(** ** Counting what the collection loop did *)

Module Accounting.
Import Exporter.

Definition is_tick (ev : Event) : bool :=
  match ev with
  | Tick => true
  | Settled _ _ => false
  end.

(** Timer ticks in a history. *)
Definition ticks (evs : list Event) : nat :=
  length (filter (λ ev, is_tick ev = true) evs).

Definition is_skip (line : LogLine) : bool :=
  match line with
  | LogSkipping => true
  | _ => false
  end.

(** Ticks that were skipped, as the console shows them. *)
Definition skips (s : Loop) : nat :=
  length (filter (λ line, is_skip line = true) (console s)).

Definition is_finish (line : LogLine) : bool :=
  match line with
  | LogCollected | LogError _ => true
  | _ => false
  end.

(** Passes that came to an end, well or badly, as the console shows them. *)
Definition finished (s : Loop) : nat :=
  length (filter (λ line, is_finish line = true) (console s)).

End Accounting.

(** ** The HTTP server ([index.ts]) *)

Module Server.

(** The part of [config] that the request handler reads. The scrape
    interval is a JavaScript number that the handler only prints, divided
    by 1000: [scrapeIntervalSeconds] is the text of
    [config.scrapeInterval / 1000]. *)
Record Config := {
  metricsPath : string;
  namespace : string;
  scrapeIntervalSeconds : string;
}.

(** What the handler gives to [new Response(body, init)]: the body, the
    [status] of [init] (200 when [init] has none) and the [headers] of
    [init]. *)
Record Response := {
  body : string;
  status : Z;
  headers : list (string * string);
}.

Definition quote : string := String (Ascii.ascii_of_nat 34) EmptyString.

Definition newline : string := String (Ascii.ascii_of_nat 10) EmptyString.

(** The status page served at [/]. *)
Definition status_page (config : Config) : string :=
  "<html>" +:+ newline
  +:+ "<head><title>Rackspace Spot Exporter</title></head>" +:+ newline
  +:+ "<body>" +:+ newline
  +:+ "<h1>Rackspace Spot Exporter</h1>" +:+ newline
  +:+ "<p><a href=" +:+ quote +:+ metricsPath config +:+ quote
  +:+ ">Metrics</a></p>" +:+ newline
  +:+ "<p>Namespace: " +:+ namespace config +:+ "</p>" +:+ newline
  +:+ "<p>Scrape Interval: " +:+ scrapeIntervalSeconds config +:+ "s</p>"
  +:+ newline
  +:+ "</body>" +:+ newline
  +:+ "</html>".

(** The [fetch] handler of [Bun.serve], on the [pathname] of the request
    URL. [metrics] is what [registry.metrics()] resolves to and
    [contentType] is [registry.contentType]. *)
Definition fetch (config : Config) (metrics contentType : string) (pathname : string)
    : Response :=
  if decide (pathname = metricsPath config) then
    {| body := metrics; status := 200; headers := [("Content-Type", contentType)] |}
  else if bool_decide (pathname = "/health") || bool_decide (pathname = "/healthz") then
    {| body := "OK"; status := 200; headers := [] |}
  else if bool_decide (pathname = "/ready") || bool_decide (pathname = "/readyz") then
    {| body := "OK"; status := 200; headers := [] |}
  else if decide (pathname = "/") then
    {| body := status_page config; status := 200;
       headers := [("Content-Type", "text/html")] |}
  else
    {| body := "Not Found"; status := 404; headers := [] |}.

End Server.

(** ** Configuration and start-up ([index.ts]) *)

Module Startup.

(** The environment variables that the exporter reads; [None] is a
    variable that is not set. *)
Record Env := {
  RACKSPACE_REFRESH_TOKEN : option string;
  RACKSPACE_API_URL : option string;
  RACKSPACE_AUTH_URL : option string;
  RACKSPACE_NAMESPACE : option string;
  PORT : option string;
  METRICS_PATH : option string;
  SCRAPE_INTERVAL : option string;
}.

(** [process.env.X] as a JavaScript value. *)
Definition getenv (variable : option string) : optional string :=
  match variable with
  | Some s => val s
  | None => undefined
  end.

(** [process.env.X || undefined] *)
Definition or_undefined (o : optional string) : optional string :=
  match o with
  | val s => if decide (s = EmptyString) then undefined else val s
  | _ => undefined
  end.

(** How the start-up ends: [process.exit(code)], or a client and a
    collector for an organization. *)
Inductive Outcome (Config : Type) :=
  | Exited (code : Z)
  | Started (config : Config) (client : ApiClient.RackspaceSpotClient)
      (organization : string).
Arguments Exited {Config} code.
Arguments Started {Config} config client organization.

Section Numbers.

(** JavaScript numbers, [parseInt(s, 10)] and multiplication by 1000 are
    taken as given: nothing below depends on what they compute. *)
Variable Number : Type.
Variable parseInt10 : string → Number.
Variable times1000 : Number → Number.

Record Config := {
  refreshToken : string;
  apiBaseUrl : optional string;
  authBaseUrl : optional string;
  namespace : string;
  port : Number;
  metricsPath : string;
  scrapeInterval : Number;
}.

(** The [config] object. *)
Definition read_config (env : Env) : Config :=
  {| refreshToken := or_string (getenv (RACKSPACE_REFRESH_TOKEN env)) EmptyString;
     apiBaseUrl := or_undefined (getenv (RACKSPACE_API_URL env));
     authBaseUrl := or_undefined (getenv (RACKSPACE_AUTH_URL env));
     namespace := or_string (getenv (RACKSPACE_NAMESPACE env)) EmptyString;
     port := parseInt10 (or_string (getenv (PORT env)) "9090");
     metricsPath := or_string (getenv (METRICS_PATH env)) "/metrics";
     scrapeInterval :=
       times1000 (parseInt10 (or_string (getenv (SCRAPE_INTERVAL env)) "60")) |}.

(** [!s] for a string. *)
Definition falsy (s : string) : bool := bool_decide (s = EmptyString).

(** The module body up to the creation of the collector. *)
Definition start (env : Env) : Outcome Config :=
  let config := read_config env in
  if falsy (refreshToken config) || falsy (namespace config) then Exited 1
  else
    Started config
      (ApiClient.constructor
         {| ApiClient.cfg_refreshToken := refreshToken config;
            ApiClient.cfg_apiBaseUrl := apiBaseUrl config;
            ApiClient.cfg_authBaseUrl := authBaseUrl config |})
      (namespace config).

End Numbers.

Arguments refreshToken {Number} _.
Arguments apiBaseUrl {Number} _.
Arguments authBaseUrl {Number} _.
Arguments namespace {Number} _.
Arguments port {Number} _.
Arguments metricsPath {Number} _.
Arguments scrapeInterval {Number} _.

(** A variable that is set to something: not unset and not empty. *)
Definition given (variable : option string) (value : string) : Prop :=
  variable = Some value ∧ value ≠ EmptyString.

End Startup.

(** * Properties of the collector *)

Module CollectorProps.
Import Collector.

(** ** Writes and the registry *)

Lemma apply_writes_app (ws1 ws2 : list SetCall) (reg : Registry) :
  apply_writes (ws1 ++ ws2) reg = apply_writes ws2 (apply_writes ws1 reg).
Proof. unfold apply_writes. by rewrite foldl_app. Qed.

Lemma apply_writes_snoc (ws : list SetCall) (w : SetCall) (reg : Registry) :
  apply_writes (ws ++ [w]) reg = <[w.1 := w.2]> (apply_writes ws reg).
Proof. by rewrite apply_writes_app. Qed.

Lemma last_write_app (k : SampleKey) (ws1 ws2 : list SetCall) :
  last_write k (ws1 ++ ws2) =
  match last_write k ws2 with
  | Some v => Some v
  | None => last_write k ws1
  end.
Proof.
  induction ws1 as [|w ws1 IH]; simpl.
  - by destruct (last_write k ws2).
  - rewrite IH. by destruct (last_write k ws2).
Qed.

Lemma last_write_None (k : SampleKey) (ws : list SetCall) :
  last_write k ws = None ↔ k ∉ ws.*1.
Proof.
  induction ws as [|w ws IH]; simpl.
  - split; [intros _; apply not_elem_of_nil | done].
  - rewrite not_elem_of_cons, <- IH.
    destruct (last_write k ws) as [v|].
    + split; [done|]. intros [_ H]. by apply H.
    + case_decide as Hk; split; try done.
      intros [H _]. by destruct H.
Qed.

Lemma last_write_Some (k : SampleKey) (ws : list SetCall) (v : Z) :
  last_write k ws = Some v → (k, v) ∈ ws.
Proof.
  induction ws as [|[k' v'] ws IH]; simpl; [done|].
  destruct (last_write k ws) as [v0|].
  - intros [= <-]. right. by apply IH.
  - case_decide; [|done]. simpl in *. intros [= <-]. subst. left.
Qed.

(** The registry after a list of writes: the last write to a sample
    wins, and a sample that is not written keeps its value. *)
Lemma apply_writes_lookup (ws : list SetCall) (reg : Registry) (k : SampleKey) :
  apply_writes ws reg !! k =
  match last_write k ws with
  | Some v => Some v
  | None => reg !! k
  end.
Proof.
  induction ws as [|w ws IH] using rev_ind; [done|].
  rewrite apply_writes_snoc, last_write_app. simpl.
  case_decide as Hk.
  - subst k. by rewrite lookup_insert_eq.
  - rewrite lookup_insert_ne by done. apply IH.
Qed.

(** ** The loops as lists of writes *)

Lemma foldl_writes {T : Type} (stepf : Registry → T → Registry)
    (writes : T → list SetCall) (its : list T) (reg : Registry) :
  (∀ r x, stepf r x = apply_writes (writes x) r) →
  foldl stepf reg its = apply_writes (flat_map writes its) reg.
Proof.
  intros Hstep. revert reg.
  induction its as [|x its IH]; intros reg; simpl; [done|].
  by rewrite apply_writes_app, IH, Hstep.
Qed.

Lemma collectCloudSpaceMetrics_writes org listed reg :
  (collectCloudSpaceMetrics org listed reg).2 =
  apply_writes (family_writes (cloudSpace_writes org) listed) reg.
Proof.
  unfold collectCloudSpaceMetrics, family_writes, listed_items.
  destruct listed as [body|e]; [|done].
  destruct (body ?. items) as [| |its]; try done.
  simpl. by apply foldl_writes.
Qed.

Lemma collectSpotNodePoolMetrics_writes org listed reg :
  (collectSpotNodePoolMetrics org listed reg).2 =
  apply_writes (family_writes (spotNodePool_writes org) listed) reg.
Proof.
  unfold collectSpotNodePoolMetrics, family_writes, listed_items.
  destruct listed as [body|e]; [|done].
  destruct (body ?. items) as [| |its]; try done.
  simpl. by apply foldl_writes.
Qed.

Lemma collectOnDemandNodePoolMetrics_writes org listed reg :
  (collectOnDemandNodePoolMetrics org listed reg).2 =
  apply_writes (family_writes (onDemandNodePool_writes org) listed) reg.
Proof.
  unfold collectOnDemandNodePoolMetrics, family_writes, listed_items.
  destruct listed as [body|e]; [|done].
  destruct (body ?. items) as [| |its]; try done.
  simpl. by apply foldl_writes.
Qed.

Lemma collectCloudSpaceMetrics_outcome org listed reg :
  (collectCloudSpaceMetrics org listed reg).1 = settled listed.
Proof.
  unfold collectCloudSpaceMetrics. destruct listed as [body|e]; [|done].
  by destruct (body ?. items).
Qed.

Lemma collectSpotNodePoolMetrics_outcome org listed reg :
  (collectSpotNodePoolMetrics org listed reg).1 = settled listed.
Proof.
  unfold collectSpotNodePoolMetrics. destruct listed as [body|e]; [|done].
  by destruct (body ?. items).
Qed.

Lemma collectOnDemandNodePoolMetrics_outcome org listed reg :
  (collectOnDemandNodePoolMetrics org listed reg).1 = settled listed.
Proof.
  unfold collectOnDemandNodePoolMetrics. destruct listed as [body|e]; [|done].
  by destruct (body ?. items).
Qed.

Lemma collect_unfold org l reg :
  collect org l reg =
  (promise_all3 (settled (listed_cloudSpaces l)) (settled (listed_spotNodePools l))
     (settled (listed_onDemandNodePools l)),
   apply_writes (pass_writes org l) reg).
Proof.
  unfold collect, pass_writes.
  pose proof (collectCloudSpaceMetrics_outcome org (listed_cloudSpaces l) reg) as O1.
  pose proof (collectCloudSpaceMetrics_writes org (listed_cloudSpaces l) reg) as W1.
  destruct (collectCloudSpaceMetrics org (listed_cloudSpaces l) reg) as [r1 reg1].
  pose proof (collectSpotNodePoolMetrics_outcome org (listed_spotNodePools l) reg1) as O2.
  pose proof (collectSpotNodePoolMetrics_writes org (listed_spotNodePools l) reg1) as W2.
  destruct (collectSpotNodePoolMetrics org (listed_spotNodePools l) reg1) as [r2 reg2].
  pose proof (collectOnDemandNodePoolMetrics_outcome org (listed_onDemandNodePools l) reg2) as O3.
  pose proof (collectOnDemandNodePoolMetrics_writes org (listed_onDemandNodePools l) reg2) as W3.
  destruct (collectOnDemandNodePoolMetrics org (listed_onDemandNodePools l) reg2)
    as [r3 reg3].
  simpl in *. subst. by rewrite !apply_writes_app.
Qed.

(** ** Samples of one family are not touched by the others *)

Lemma family_writes_metric {T : Type} (writes : T → list SetCall) (metrics : list string)
    (listed : ListOutcome T) (k : SampleKey) :
  (∀ x w, w ∈ writes x → w.1.1 ∈ metrics) →
  k ∈ (family_writes writes listed).*1 → k.1 ∈ metrics.
Proof.
  intros Hm Hk. apply list_elem_of_fmap in Hk as [w [-> Hw]].
  unfold family_writes in Hw. apply list_elem_of_In, in_flat_map in Hw as [x [_ Hw]].
  apply list_elem_of_In in Hw. by eapply Hm.
Qed.

(** Membership of a metric name in a short explicit list of names. *)
Ltac metric_names :=
  rewrite ?list_elem_of_In in *; simpl in *;
  intuition (subst; simpl; auto; discriminate).

Lemma cloudSpace_writes_metric org (c : CloudSpace) (w : SetCall) :
  w ∈ cloudSpace_writes org c → w.1.1 ∈ [cloudspaceNodesGauge].
Proof. unfold cloudSpace_writes. metric_names. Qed.

Lemma spotNodePool_writes_metric org (p : SpotNodePool) (w : SetCall) :
  w ∈ spotNodePool_writes org p →
  w.1.1 ∈ [spotNodePoolDesiredGauge; spotNodePoolWonCountGauge].
Proof. unfold spotNodePool_writes. metric_names. Qed.

Lemma onDemandNodePool_writes_metric org (p : OnDemandNodePool) (w : SetCall) :
  w ∈ onDemandNodePool_writes org p →
  w.1.1 ∈ [onDemandNodePoolDesiredGauge; onDemandNodePoolReservedCountGauge].
Proof. unfold onDemandNodePool_writes. metric_names. Qed.

(** A family does not write to a sample of a metric that is not its own. *)
Lemma last_write_other_family {T : Type} (writes : T → list SetCall)
    (metrics : list string) (listed : ListOutcome T) (k : SampleKey) :
  (∀ x w, w ∈ writes x → w.1.1 ∈ metrics) →
  k.1 ∉ metrics →
  last_write k (family_writes writes listed) = None.
Proof.
  intros Hm Hk. apply last_write_None. intros Hin. apply Hk.
  by eapply family_writes_metric.
Qed.

(** The node-count sample of a cloudspace is written by the cloudspace
    loop only. *)
Lemma collect_lookup_cloudspace org l reg (labels : Labels) :
  (collect org l reg).2 !! (cloudspaceNodesGauge, labels) =
  match last_write (cloudspaceNodesGauge, labels)
          (family_writes (cloudSpace_writes org) (listed_cloudSpaces l)) with
  | Some v => Some v
  | None => reg !! (cloudspaceNodesGauge, labels)
  end.
Proof.
  rewrite collect_unfold. simpl. rewrite apply_writes_lookup.
  unfold pass_writes. rewrite !last_write_app.
  rewrite (last_write_other_family _ _ _ _ (onDemandNodePool_writes_metric org)).
  2:{ metric_names. }
  rewrite (last_write_other_family _ _ _ _ (spotNodePool_writes_metric org)).
  2:{ metric_names. }
  done.
Qed.

(** C1. For every CloudSpace item of a pass whose cloudspace list call
    succeeded, the value given to [set] on the
    [rackspace_spot_cloudspace_nodes_total] gauge is the number of keys of
    the item's [status.assignedServers] map, and 0 when the map is absent;
    after the pass the registry holds that value for the label combination
    of the item (of the last such item, when several items of the list
    carry the same labels). *)
Theorem cloudspace_nodes_total_value org l reg body pre c post :
  listed_cloudSpaces l = Ok body →
  body ?. items = val (pre ++ c :: post) →
  (∀ c', c' ∈ post → cs_labels org c' ≠ cs_labels org c) →
  let count := match cs_status c ?. assignedServers with
               | val servers => Z.of_nat (size servers)
               | _ => 0
               end in
  (∀ r, cloudSpace_step org r c = gauge_set cloudspaceNodesGauge (cs_labels org c) count r)
  ∧ (collect org l reg).2 !! (cloudspaceNodesGauge, cs_labels org c) = Some count.
Proof.
  intros Hl Hits Hlast count.
  assert (Hcount : cs_nodeCount c = count).
  { unfold count, cs_nodeCount, cs_assignedServers.
    destruct (cs_status c ?. assignedServers); simpl; by rewrite ?map_size_empty. }
  split.
  - intros r. unfold cloudSpace_step. by rewrite Hcount.
  - rewrite collect_lookup_cloudspace.
    unfold family_writes, listed_items. rewrite Hl, Hits.
    rewrite flat_map_app. simpl. rewrite last_write_app. simpl.
    replace (last_write (cloudspaceNodesGauge, cs_labels org c)
               (flat_map (cloudSpace_writes org) post)) with (@None Z).
    + rewrite decide_True by done. by rewrite Hcount.
    + symmetry. apply last_write_None. intros Hin.
      apply list_elem_of_fmap in Hin as [w [Hk Hw]].
      apply list_elem_of_In, in_flat_map in Hw as [c' [Hc' Hw]].
      apply list_elem_of_In in Hc'. apply (Hlast c' Hc').
      unfold cloudSpace_writes in Hw. simpl in Hw. destruct Hw as [<-|[]].
      simpl in Hk. congruence.
Qed.

Lemma cloudspace_nodes_total_value_witness :
  (collect Scenarios.org Scenarios.pass_full ∅).2
    !! (cloudspaceNodesGauge,
        [("namespace", "org-test"); ("cloudspace", "cloudspace-1");
         ("cloudspace_region", "us-central-dfw-1")])
  = Some 2.
Proof.
  apply (cloudspace_nodes_total_value Scenarios.org Scenarios.pass_full ∅
           (val {| items := val [Scenarios.cloudspace_1] |})
           [] Scenarios.cloudspace_1 [] eq_refl eq_refl).
  intros c' Hc'. inversion Hc'.
Defined.

(** A pass whose three list calls succeeded runs the three loops over
    all the items it was given, whatever fields they lack. *)
Lemma collect_runs_all_items org cloudSpaces spotNodePools onDemandNodePools reg :
  collect org
    {| listed_cloudSpaces := Ok cloudSpaces;
       listed_spotNodePools := Ok spotNodePools;
       listed_onDemandNodePools := Ok onDemandNodePools |} reg
  = (Ok tt,
     foldl (onDemandNodePool_step org)
       (foldl (spotNodePool_step org)
          (foldl (cloudSpace_step org) reg (listed_items (Ok cloudSpaces)))
          (listed_items (Ok spotNodePools)))
       (listed_items (Ok onDemandNodePools))).
Proof.
  unfold collect, collectCloudSpaceMetrics, collectSpotNodePoolMetrics,
    collectOnDemandNodePoolMetrics, listed_items. simpl.
  by destruct (cloudSpaces ?. items), (spotNodePools ?. items),
    (onDemandNodePools ?. items).
Qed.

(** C2. A missing field of a resource item never makes [collect()] fail
    and resolves to its default in the [set] calls made for the item: a
    missing [metadata.name], [spec.cloudSpace], [spec.serverClass],
    [status.bidStatus] or [status.reservedStatus] gives the label value
    ["unknown"] in its own label, a missing [spec.desired],
    [status.wonCount] or [status.reservedCount] gives the value 0 (a
    field is also missing when the object that holds it is); a pass whose
    list calls succeeded is fulfilled and has made the [set] calls of
    every item. *)
Theorem missing_fields_default org :
  (∀ (c : CloudSpace) reg,
     cloudSpace_step org reg c
     = cloudspace_set org (cs_name c) (cs_region c) (cs_nodeCount c) reg
     ∧ (missing (cs_metadata c ?. name) → cs_name c = "unknown")
     ∧ (missing (cs_metadata c ?. name) →
        cloudSpace_step org reg c
        = cloudspace_set org "unknown" (cs_region c) (cs_nodeCount c) reg))
  ∧ (∀ (p : SpotNodePool) reg,
       spotNodePool_step org reg p
       = spot_pool_sets org (sp_cloudSpace p) (sp_name p) (sp_serverClass p)
           (sp_bidStatus p) (sp_desired p) (sp_wonCount p) reg
       ∧ (missing (sp_metadata p ?. name) → sp_name p = "unknown")
       ∧ (missing (sp_spec p ?. cloudSpace) → sp_cloudSpace p = "unknown")
       ∧ (missing (sp_spec p ?. serverClass) → sp_serverClass p = "unknown")
       ∧ (missing (sp_status p ?. bidStatus) → sp_bidStatus p = "unknown")
       ∧ (missing (sp_spec p ?. desired) → sp_desired p = 0)
       ∧ (missing (sp_status p ?. wonCount) → sp_wonCount p = 0)
       ∧ (missing (sp_metadata p ?. name) → missing (sp_spec p ?. cloudSpace) →
          missing (sp_spec p ?. serverClass) → missing (sp_status p ?. bidStatus) →
          missing (sp_spec p ?. desired) → missing (sp_status p ?. wonCount) →
          spotNodePool_step org reg p
          = spot_pool_sets org "unknown" "unknown" "unknown" "unknown" 0 0 reg))
  ∧ (∀ (p : OnDemandNodePool) reg,
       onDemandNodePool_step org reg p
       = ondemand_pool_sets org (od_cloudSpace p) (od_name p) (od_serverClass p)
           (od_reservedStatus p) (od_desired p) (od_reservedCount p) reg
       ∧ (missing (od_metadata p ?. name) → od_name p = "unknown")
       ∧ (missing (od_spec p ?. cloudSpace) → od_cloudSpace p = "unknown")
       ∧ (missing (od_spec p ?. serverClass) → od_serverClass p = "unknown")
       ∧ (missing (od_status p ?. reservedStatus) → od_reservedStatus p = "unknown")
       ∧ (missing (od_spec p ?. desired) → od_desired p = 0)
       ∧ (missing (od_status p ?. reservedCount) → od_reservedCount p = 0)
       ∧ (missing (od_metadata p ?. name) → missing (od_spec p ?. cloudSpace) →
          missing (od_spec p ?. serverClass) → missing (od_status p ?. reservedStatus) →
          missing (od_spec p ?. desired) → missing (od_status p ?. reservedCount) →
          onDemandNodePool_step org reg p
          = ondemand_pool_sets org "unknown" "unknown" "unknown" "unknown" 0 0 reg))
  ∧ (∀ cloudSpaces spotNodePools onDemandNodePools reg,
       collect org
         {| listed_cloudSpaces := Ok cloudSpaces;
            listed_spotNodePools := Ok spotNodePools;
            listed_onDemandNodePools := Ok onDemandNodePools |} reg
       = (Ok tt,
          foldl (onDemandNodePool_step org)
            (foldl (spotNodePool_step org)
               (foldl (cloudSpace_step org) reg (listed_items (Ok cloudSpaces)))
               (listed_items (Ok spotNodePools)))
            (listed_items (Ok onDemandNodePools)))).
Proof.
  assert (Hs : ∀ o : optional string, missing o → or_string o "unknown" = "unknown")
    by (by intros [| |?]).
  assert (Hn : ∀ o : optional Z, missing o → or_number o 0 = 0)
    by (by intros [| |?]).
  split; [|split; [|split]].
  - intros c reg. split; [reflexivity|]. split; [apply Hs|].
    intros Hname. unfold cloudSpace_step, cs_labels. fold (cs_name c).
    unfold cs_name. by rewrite (Hs _ Hname).
  - intros p reg. split; [reflexivity|].
    split; [apply Hs|]. split; [apply Hs|]. split; [apply Hs|]. split; [apply Hs|].
    split; [apply Hn|]. split; [apply Hn|].
    intros H1 H2 H3 H4 H5 H6.
    unfold spotNodePool_step, sp_won_labels, sp_desired_labels, sp_name, sp_cloudSpace,
      sp_serverClass, sp_bidStatus, sp_desired, sp_wonCount.
    by rewrite (Hs _ H1), (Hs _ H2), (Hs _ H3), (Hs _ H4), (Hn _ H5), (Hn _ H6).
  - intros p reg. split; [reflexivity|].
    split; [apply Hs|]. split; [apply Hs|]. split; [apply Hs|]. split; [apply Hs|].
    split; [apply Hn|]. split; [apply Hn|].
    intros H1 H2 H3 H4 H5 H6.
    unfold onDemandNodePool_step, od_reserved_labels, od_desired_labels, od_name,
      od_cloudSpace, od_serverClass, od_reservedStatus, od_desired, od_reservedCount.
    by rewrite (Hs _ H1), (Hs _ H2), (Hs _ H3), (Hs _ H4), (Hn _ H5), (Hn _ H6).
  - intros. apply collect_runs_all_items.
Qed.

Lemma missing_fields_default_witness :
  Collector.sp_name Scenarios.bare_spot_pool = "unknown"
  ∧ Collector.sp_desired Scenarios.bare_spot_pool = 0
  ∧ spotNodePool_step Scenarios.org ∅ Scenarios.bare_spot_pool
    = spot_pool_sets Scenarios.org "unknown" "unknown" "unknown" "unknown" 0 0 ∅
  ∧ Collector.od_reservedStatus
      {| od_metadata := null; od_spec := undefined; od_status := null |} = "unknown"
  ∧ (collect Scenarios.org Scenarios.pass_bare ∅).1 = Ok tt.
Proof.
  pose proof (missing_fields_default Scenarios.org) as (_ & Hsp & Hod & Hok).
  destruct (Hsp Scenarios.bare_spot_pool ∅)
    as (_ & Hname & _ & _ & _ & Hdesired & _ & Hall).
  destruct (Hod {| od_metadata := null; od_spec := undefined; od_status := null |} ∅)
    as (_ & _ & _ & _ & Hstatus & _).
  split; [exact (Hname I)|]. split; [exact (Hdesired I)|].
  split; [exact (Hall I I I I I I)|].
  split; [exact (Hstatus I)|].
  exact (f_equal fst (Hok (val {| items := val [Scenarios.bare_cloudspace] |})
                        (val {| items := val [Scenarios.bare_spot_pool] |})
                        (val {| items := val [Scenarios.bare_ondemand_pool] |}) ∅)).
Defined.

(** C10. A string field that is present and empty is treated like an
    absent one and gives the label value ["unknown"] in its own label of
    the [set] calls made for the item; a numeric field that is 0 or
    [null] gives the value 0; so the [set] calls made for an item with an
    explicit 0 (or an empty string) are those made for the item without
    the field. *)
Theorem falsy_fields_default org :
  (∀ (c : CloudSpace) reg,
       cloudSpace_step org reg c
       = cloudspace_set org (cs_name c) (cs_region c) (cs_nodeCount c) reg
       ∧ (cs_metadata c ?. name = val EmptyString → cs_name c = "unknown")
       ∧ (cs_spec c ?. region = val EmptyString → cs_region c = "unknown")
       ∧ (cs_metadata c ?. name = val EmptyString →
          cs_spec c ?. region = val EmptyString →
          cloudSpace_step org reg c
          = cloudspace_set org "unknown" "unknown" (cs_nodeCount c) reg))
  ∧ (∀ (p : SpotNodePool) reg,
       spotNodePool_step org reg p
       = spot_pool_sets org (sp_cloudSpace p) (sp_name p) (sp_serverClass p)
           (sp_bidStatus p) (sp_desired p) (sp_wonCount p) reg
       ∧ (sp_metadata p ?. name = val EmptyString → sp_name p = "unknown")
       ∧ (sp_spec p ?. cloudSpace = val EmptyString → sp_cloudSpace p = "unknown")
       ∧ (sp_spec p ?. serverClass = val EmptyString → sp_serverClass p = "unknown")
       ∧ (sp_status p ?. bidStatus = val EmptyString → sp_bidStatus p = "unknown")
       ∧ (sp_spec p ?. desired = val 0 ∨ sp_spec p ?. desired = null → sp_desired p = 0)
       ∧ (sp_status p ?. wonCount = val 0 ∨ sp_status p ?. wonCount = null →
          sp_wonCount p = 0)
       ∧ (sp_metadata p ?. name = val EmptyString →
          sp_spec p ?. cloudSpace = val EmptyString →
          sp_spec p ?. serverClass = val EmptyString →
          sp_status p ?. bidStatus = val EmptyString →
          sp_spec p ?. desired = val 0 ∨ sp_spec p ?. desired = null →
          sp_status p ?. wonCount = val 0 ∨ sp_status p ?. wonCount = null →
          spotNodePool_step org reg p
          = spot_pool_sets org "unknown" "unknown" "unknown" "unknown" 0 0 reg))
  ∧ (∀ (p : OnDemandNodePool) reg,
       onDemandNodePool_step org reg p
       = ondemand_pool_sets org (od_cloudSpace p) (od_name p) (od_serverClass p)
           (od_reservedStatus p) (od_desired p) (od_reservedCount p) reg
       ∧ (od_metadata p ?. name = val EmptyString → od_name p = "unknown")
       ∧ (od_spec p ?. cloudSpace = val EmptyString → od_cloudSpace p = "unknown")
       ∧ (od_spec p ?. serverClass = val EmptyString → od_serverClass p = "unknown")
       ∧ (od_status p ?. reservedStatus = val EmptyString →
          od_reservedStatus p = "unknown")
       ∧ (od_spec p ?. desired = val 0 ∨ od_spec p ?. desired = null → od_desired p = 0)
       ∧ (od_status p ?. reservedCount = val 0 ∨ od_status p ?. reservedCount = null →
          od_reservedCount p = 0)
       ∧ (od_metadata p ?. name = val EmptyString →
          od_spec p ?. cloudSpace = val EmptyString →
          od_spec p ?. serverClass = val EmptyString →
          od_status p ?. reservedStatus = val EmptyString →
          od_spec p ?. desired = val 0 ∨ od_spec p ?. desired = null →
          od_status p ?. reservedCount = val 0 ∨ od_status p ?. reservedCount = null →
          onDemandNodePool_step org reg p
          = ondemand_pool_sets org "unknown" "unknown" "unknown" "unknown" 0 0 reg))
  ∧ (∀ reg metadata status cs sc,
       spotNodePool_step org reg
         {| sp_metadata := metadata;
            sp_spec := val {| cloudSpace := cs; serverClass := sc; desired := val 0 |};
            sp_status := status |}
       = spotNodePool_step org reg
           {| sp_metadata := metadata;
              sp_spec := val {| cloudSpace := cs; serverClass := sc;
                                desired := undefined |};
              sp_status := status |})
  ∧ (∀ reg spec status,
       cloudSpace_step org reg
         {| cs_metadata := val {| name := val EmptyString |};
            cs_spec := spec; cs_status := status |}
       = cloudSpace_step org reg
           {| cs_metadata := val {| name := undefined |};
              cs_spec := spec; cs_status := status |}).
Proof.
  assert (Hs : ∀ o : optional string, o = val EmptyString →
                 or_string o "unknown" = "unknown") by (by intros ? ->).
  assert (Hn : ∀ o : optional Z, o = val 0 ∨ o = null → or_number o 0 = 0)
    by (by intros ? [-> | ->]).
  split; [|split; [|split; [|split]]].
  - intros c reg. split; [reflexivity|]. split; [apply Hs|]. split; [apply Hs|].
    intros H1 H2. unfold cloudSpace_step, cs_labels, cs_name, cs_region.
    by rewrite (Hs _ H1), (Hs _ H2).
  - intros p reg. split; [reflexivity|].
    split; [apply Hs|]. split; [apply Hs|]. split; [apply Hs|]. split; [apply Hs|].
    split; [apply Hn|]. split; [apply Hn|].
    intros H1 H2 H3 H4 H5 H6.
    unfold spotNodePool_step, sp_won_labels, sp_desired_labels, sp_name, sp_cloudSpace,
      sp_serverClass, sp_bidStatus, sp_desired, sp_wonCount.
    by rewrite (Hs _ H1), (Hs _ H2), (Hs _ H3), (Hs _ H4), (Hn _ H5), (Hn _ H6).
  - intros p reg. split; [reflexivity|].
    split; [apply Hs|]. split; [apply Hs|]. split; [apply Hs|]. split; [apply Hs|].
    split; [apply Hn|]. split; [apply Hn|].
    intros H1 H2 H3 H4 H5 H6.
    unfold onDemandNodePool_step, od_reserved_labels, od_desired_labels, od_name,
      od_cloudSpace, od_serverClass, od_reservedStatus, od_desired, od_reservedCount.
    by rewrite (Hs _ H1), (Hs _ H2), (Hs _ H3), (Hs _ H4), (Hn _ H5), (Hn _ H6).
  - done.
  - done.
Qed.

Lemma falsy_fields_default_witness :
  Collector.sp_name Scenarios.falsy_spot_pool = "unknown"
  ∧ Collector.sp_bidStatus Scenarios.falsy_spot_pool = "unknown"
  ∧ Collector.sp_desired Scenarios.falsy_spot_pool = 0
  ∧ Collector.sp_wonCount Scenarios.falsy_spot_pool = 0
  ∧ spotNodePool_step Scenarios.org ∅ Scenarios.falsy_spot_pool
    = spot_pool_sets Scenarios.org "unknown" "unknown" "unknown" "unknown" 0 0 ∅.
Proof.
  pose proof (falsy_fields_default Scenarios.org) as (_ & Hsp & _).
  destruct (Hsp Scenarios.falsy_spot_pool ∅)
    as (_ & Hname & _ & _ & Hbid & Hdesired & Hwon & Hall).
  split; [exact (Hname eq_refl)|]. split; [exact (Hbid eq_refl)|].
  split; [exact (Hdesired (or_introl eq_refl))|].
  split; [exact (Hwon (or_intror eq_refl))|].
  exact (Hall eq_refl eq_refl eq_refl eq_refl (or_introl eq_refl) (or_intror eq_refl)).
Defined.

Lemma no_items_writes {T : Type} (writes : T → list SetCall) (listed : ListOutcome T) :
  no_items listed → family_writes writes listed = [] ∧ settled listed = Ok tt.
Proof.
  unfold no_items, family_writes, listed_items.
  destruct listed as [body|e]; [|done].
  destruct (body ?. items) as [| |its]; try done. by intros ->.
Qed.

(** A label combination of the pass holds a value written in the pass. *)
Lemma collect_lookup_written org l reg (k : SampleKey) :
  k ∈ pass_keys org l →
  ∃ v, (k, v) ∈ pass_writes org l ∧ (collect org l reg).2 !! k = Some v.
Proof.
  intros Hk. rewrite collect_unfold. simpl. rewrite apply_writes_lookup.
  destruct (last_write k (pass_writes org l)) as [v|] eqn:Hlast.
  - exists v. split; [by apply last_write_Some | done].
  - by apply last_write_None in Hlast.
Qed.

(** A sample that the pass does not name keeps its value. *)
Lemma collect_lookup_unwritten org l reg (k : SampleKey) :
  k ∉ pass_keys org l → (collect org l reg).2 !! k = reg !! k.
Proof.
  intros Hk. rewrite collect_unfold. simpl. rewrite apply_writes_lookup.
  apply last_write_None in Hk. by rewrite Hk.
Qed.

(** C6. [collect()] is rejected exactly when one of the three list calls
    is; when the three calls succeed with an empty or absent [items] list,
    [collect()] is fulfilled and leaves the registry as it was, so that no
    label combination is published. *)
Theorem collect_fails_iff org l reg :
  (is_err (collect org l reg).1 = true ↔
     is_err (listed_cloudSpaces l) = true
     ∨ is_err (listed_spotNodePools l) = true
     ∨ is_err (listed_onDemandNodePools l) = true)
  ∧ (no_items (listed_cloudSpaces l) →
     no_items (listed_spotNodePools l) →
     no_items (listed_onDemandNodePools l) →
     collect org l reg = (Ok tt, reg)).
Proof.
  rewrite collect_unfold. split.
  - simpl.
    destruct (listed_cloudSpaces l), (listed_spotNodePools l),
      (listed_onDemandNodePools l); simpl; intuition discriminate.
  - intros H1 H2 H3. unfold pass_writes.
    destruct (no_items_writes (cloudSpace_writes org) _ H1) as [-> ->].
    destruct (no_items_writes (spotNodePool_writes org) _ H2) as [-> ->].
    destruct (no_items_writes (onDemandNodePool_writes org) _ H3) as [-> ->].
    done.
Qed.

Lemma collect_fails_iff_witness :
  collect Scenarios.org Scenarios.pass_absent ∅ = (Ok tt, ∅)
  ∧ is_err (collect Scenarios.org Scenarios.pass_partial ∅).1 = true.
Proof.
  destruct (collect_fails_iff Scenarios.org Scenarios.pass_absent ∅) as [_ Hnone].
  destruct (collect_fails_iff Scenarios.org Scenarios.pass_partial ∅) as [[_ Hfail] _].
  split.
  - apply Hnone; exact I.
  - apply Hfail. left. reflexivity.
Defined.

(** C8. [collect()] sets a value for the label combinations of the
    current pass only: such a combination holds a value written in this
    pass, and any other sample, in particular one published by an earlier
    pass, is neither cleared nor changed. *)
Theorem collect_frame org l reg (k : SampleKey) :
  (k ∈ pass_keys org l →
     ∃ v, (k, v) ∈ pass_writes org l ∧ (collect org l reg).2 !! k = Some v)
  ∧ (k ∉ pass_keys org l → (collect org l reg).2 !! k = reg !! k).
Proof.
  split; [apply collect_lookup_written | apply collect_lookup_unwritten].
Qed.

Lemma collect_frame_witness :
  (collect Scenarios.org Scenarios.pass_empty
     (collect Scenarios.org Scenarios.pass_full ∅).2).2
    !! (cloudspaceNodesGauge, cs_labels Scenarios.org Scenarios.cloudspace_1)
  = (collect Scenarios.org Scenarios.pass_full ∅).2
      !! (cloudspaceNodesGauge, cs_labels Scenarios.org Scenarios.cloudspace_1).
Proof.
  apply (collect_frame Scenarios.org Scenarios.pass_empty).
  vm_compute. intros H. inversion H.
Defined.

(** The registry after one run of a family collector. *)
Lemma settle_writes (org : string) (s : Settlement) (reg : Registry) :
  settle org reg s = apply_writes (settlement_writes org s) reg.
Proof.
  destruct s; simpl.
  - apply collectCloudSpaceMetrics_writes.
  - apply collectSpotNodePoolMetrics_writes.
  - apply collectOnDemandNodePoolMetrics_writes.
Qed.

(** C9, as stated, fails: the samples visible after a pass are not those
    of the last complete pass. After a complete pass, a pass whose
    cloudspace call was rejected still publishes the spot pool family (7
    where the complete pass had 5); and a complete pass with no
    cloudspace, made after a complete pass with one, leaves the
    cloudspace sample of the earlier pass in the registry. *)
Lemma partial_pass_published :
  complete Scenarios.pass_full = true
  ∧ complete Scenarios.pass_partial = false
  ∧ is_err (collect Scenarios.org Scenarios.pass_partial
              (collect Scenarios.org Scenarios.pass_full ∅).2).1 = true
  ∧ (collect Scenarios.org Scenarios.pass_partial
       (collect Scenarios.org Scenarios.pass_full ∅).2).2
    ≠ (collect Scenarios.org Scenarios.pass_full ∅).2
  ∧ complete Scenarios.pass_empty = true
  ∧ (collect Scenarios.org Scenarios.pass_empty
       (collect Scenarios.org Scenarios.pass_full ∅).2).2
    ≠ (collect Scenarios.org Scenarios.pass_empty ∅).2.
Proof.
  split; [reflexivity|]. split; [reflexivity|]. split; [reflexivity|].
  split; [|split; [reflexivity|]].
  - intros Heq.
    apply (f_equal (λ reg : Registry,
             reg !! (spotNodePoolDesiredGauge,
                     sp_desired_labels Scenarios.org (Scenarios.spot_pool_1 5)))) in Heq.
    vm_compute in Heq. discriminate Heq.
  - intros Heq.
    apply (f_equal (λ reg : Registry,
             reg !! (cloudspaceNodesGauge,
                     cs_labels Scenarios.org Scenarios.cloudspace_1))) in Heq.
    vm_compute in Heq. discriminate Heq.
Qed.

(** C9, amended. Gauge values are published by family collector and by
    sample, not by pass. In a pass, a family whose list call was rejected
    is left as it was, every sample of it; whatever became of the other
    calls, every label combination in the response of a call that
    succeeded holds a value written in this pass; a sample that no item
    of the pass names keeps the value it had. The same holds of each run
    of a family collector by itself, whenever it runs: after a rejected
    call it writes nothing, after a call that succeeded it sets every
    label combination of the response and leaves every other sample as
    it was. *)
Theorem collect_per_family org l reg :
  (is_err (listed_cloudSpaces l) = true →
     ∀ labels, (collect org l reg).2 !! (cloudspaceNodesGauge, labels)
               = reg !! (cloudspaceNodesGauge, labels))
  ∧ (is_err (listed_spotNodePools l) = true →
     ∀ labels, (collect org l reg).2 !! (spotNodePoolDesiredGauge, labels)
               = reg !! (spotNodePoolDesiredGauge, labels)
             ∧ (collect org l reg).2 !! (spotNodePoolWonCountGauge, labels)
               = reg !! (spotNodePoolWonCountGauge, labels))
  ∧ (is_err (listed_onDemandNodePools l) = true →
     ∀ labels, (collect org l reg).2 !! (onDemandNodePoolDesiredGauge, labels)
               = reg !! (onDemandNodePoolDesiredGauge, labels)
             ∧ (collect org l reg).2 !! (onDemandNodePoolReservedCountGauge, labels)
               = reg !! (onDemandNodePoolReservedCountGauge, labels))
  ∧ (∀ w, w ∈ pass_writes org l →
       ∃ v, (w.1, v) ∈ pass_writes org l ∧ (collect org l reg).2 !! w.1 = Some v)
  ∧ (∀ k, k ∉ pass_keys org l → (collect org l reg).2 !! k = reg !! k)
  ∧ (∀ e r, settle org r (CloudSpacesSettled (Err e)) = r
            ∧ settle org r (SpotNodePoolsSettled (Err e)) = r
            ∧ settle org r (OnDemandNodePoolsSettled (Err e)) = r)
  ∧ (∀ s r w, w ∈ settlement_writes org s →
       ∃ v, (w.1, v) ∈ settlement_writes org s ∧ settle org r s !! w.1 = Some v)
  ∧ (∀ s r k, k ∉ (settlement_writes org s).*1 → settle org r s !! k = r !! k).
Proof.
  assert (Hother : ∀ k, last_write k (pass_writes org l) = None →
                     (collect org l reg).2 !! k = reg !! k).
  { intros k Hk. rewrite collect_unfold. simpl. by rewrite apply_writes_lookup, Hk. }
  assert (Hsplit : ∀ k,
    last_write k (family_writes (cloudSpace_writes org) (listed_cloudSpaces l)) = None →
    last_write k (family_writes (spotNodePool_writes org) (listed_spotNodePools l)) = None →
    last_write k (family_writes (onDemandNodePool_writes org)
                    (listed_onDemandNodePools l)) = None →
    last_write k (pass_writes org l) = None).
  { intros k H1 H2 H3. unfold pass_writes. by rewrite !last_write_app, H3, H2, H1. }
  assert (Hcs : ∀ k, k.1 ∉ [cloudspaceNodesGauge] →
    last_write k (family_writes (cloudSpace_writes org) (listed_cloudSpaces l)) = None).
  { intros k. apply last_write_other_family, cloudSpace_writes_metric. }
  assert (Hsp : ∀ k, k.1 ∉ [spotNodePoolDesiredGauge; spotNodePoolWonCountGauge] →
    last_write k (family_writes (spotNodePool_writes org) (listed_spotNodePools l)) = None).
  { intros k. apply last_write_other_family, spotNodePool_writes_metric. }
  assert (Hod : ∀ k,
    k.1 ∉ [onDemandNodePoolDesiredGauge; onDemandNodePoolReservedCountGauge] →
    last_write k (family_writes (onDemandNodePool_writes org)
                    (listed_onDemandNodePools l)) = None).
  { intros k. apply last_write_other_family, onDemandNodePool_writes_metric. }
  split; [|split; [|split; [|split; [|split; [|split; [|split]]]]]].
  - intros Herr labels. apply Hother, Hsplit.
    + by destruct (listed_cloudSpaces l).
    + apply Hsp. metric_names.
    + apply Hod. metric_names.
  - intros Herr labels.
    assert (Hnone : ∀ k, last_write k (family_writes (spotNodePool_writes org)
                                      (listed_spotNodePools l)) = None).
    { by destruct (listed_spotNodePools l). }
    split; apply Hother, Hsplit; try apply Hnone;
      (apply Hcs || apply Hod); metric_names.
  - intros Herr labels.
    assert (Hnone : ∀ k, last_write k (family_writes (onDemandNodePool_writes org)
                                      (listed_onDemandNodePools l)) = None).
    { by destruct (listed_onDemandNodePools l). }
    split; apply Hother, Hsplit; try apply Hnone;
      (apply Hcs || apply Hsp); metric_names.
  - intros w Hw. apply (collect_lookup_written org l reg).
    apply list_elem_of_fmap. by exists w.
  - intros k Hk. apply Hother. by apply last_write_None.
  - done.
  - intros s r w Hw. rewrite settle_writes, apply_writes_lookup.
    destruct (last_write w.1 (settlement_writes org s)) as [v|] eqn:Hlast.
    + exists v. split; [by apply last_write_Some | done].
    + apply last_write_None in Hlast. destruct Hlast.
      apply list_elem_of_fmap. by exists w.
  - intros s r k Hk. rewrite settle_writes, apply_writes_lookup.
    apply last_write_None in Hk. by rewrite Hk.
Qed.

Lemma collect_per_family_witness :
  let before := (collect Scenarios.org Scenarios.pass_full ∅).2 in
  let after := (collect Scenarios.org Scenarios.pass_partial before).2 in
  after !! (cloudspaceNodesGauge, cs_labels Scenarios.org Scenarios.cloudspace_1)
  = before !! (cloudspaceNodesGauge, cs_labels Scenarios.org Scenarios.cloudspace_1)
  ∧ ∃ v, ((spotNodePoolDesiredGauge,
           sp_desired_labels Scenarios.org (Scenarios.spot_pool_1 7)), v)
           ∈ pass_writes Scenarios.org Scenarios.pass_partial
         ∧ after !! (spotNodePoolDesiredGauge,
                     sp_desired_labels Scenarios.org (Scenarios.spot_pool_1 7)) = Some v.
Proof.
  intros before after.
  destruct (collect_per_family Scenarios.org Scenarios.pass_partial before)
    as (Hfailed & _ & _ & Hwritten & _).
  split.
  - apply Hfailed. reflexivity.
  - apply (Hwritten ((spotNodePoolDesiredGauge,
                      sp_desired_labels Scenarios.org (Scenarios.spot_pool_1 7)), 7)).
    apply list_elem_of_In. simpl. left. reflexivity.
Defined.

End CollectorProps.

(** * Properties of the API client *)

Module ApiClientProps.
Import ApiClient.

(** ** The methods, unfolded *)

Lemma authenticate_unfold {T : Type} (net : Net T) (this : RackspaceSpotClient) :
  authenticate net this =
  match token_fetch net with
  | Err e => (Err e, this, [token_post this])
  | Ok response =>
      if ok response then
        match json response with
        | Err e => (Err e, this, [token_post this])
        | Ok data =>
            (Ok tt,
             {| refreshToken := refreshToken this;
                apiBaseUrl := apiBaseUrl this;
                authBaseUrl := authBaseUrl this;
                accessToken := Some (id_token data);
                tokenExpiry := token_now net + expires_in data * 1000 |},
             [token_post this])
        end
      else
        (Err {| message := "Failed to authenticate: " +:+ pretty (status response)
                             +:+ " - " +:+ text response |},
         this, [token_post this])
  end.
Proof.
  unfold authenticate, mbind, M_bind, bind, get_this, send, await, throw, set_token.
  simpl. destruct (token_fetch net) as [response|e]; [|done].
  destruct (ok response); simpl; [|done].
  by destruct (json response).
Qed.

Lemma reusable_spec (this : RackspaceSpotClient) (t : Z) :
  truthy_string (accessToken this) && bool_decide (t < tokenExpiry this - 60000) = true
  ↔ reusable this t.
Proof.
  unfold reusable, truthy_string.
  rewrite andb_true_iff, bool_decide_eq_true.
  destruct (accessToken this) as [token|].
  - case_decide as Hempty; split.
    + intros [? _]. done.
    + intros [(token' & [= <-] & Hne) _]. done.
    + intros [_ Ht]. split; [by exists token | done].
    + intros [_ Ht]. done.
  - split; [by intros [? _] | by intros [(? & ? & _) _]].
Qed.

Lemma ensureAuthenticated_reuse {T : Type} (net : Net T) (this : RackspaceSpotClient) :
  reusable this (now net) → ensureAuthenticated net this = (Ok tt, this, []).
Proof.
  intros Hre. apply reusable_spec in Hre.
  unfold ensureAuthenticated, mbind, M_bind, bind, get_this. simpl.
  by rewrite Hre.
Qed.

Lemma ensureAuthenticated_exchange {T : Type} (net : Net T) (this : RackspaceSpotClient) :
  ¬ reusable this (now net) → ensureAuthenticated net this = authenticate net this.
Proof.
  intros Hre. rewrite <- reusable_spec in Hre. apply not_true_is_false in Hre.
  unfold ensureAuthenticated, mbind, M_bind, bind, get_this. simpl.
  rewrite Hre. by destruct (authenticate net this) as [[[]] ?]; rewrite ?app_nil_r.
Qed.

(** One call of [authenticate] is one token exchange, whatever comes of
    it: there is no retry. *)
Lemma authenticate_sent {T : Type} (net : Net T) (this : RackspaceSpotClient) :
  (authenticate net this).2 = [token_post this].
Proof.
  rewrite authenticate_unfold.
  destruct (token_fetch net) as [response|]; [|done].
  destruct (ok response); [|done]. by destruct (json response).
Qed.

Lemma GET_unfold {T : Type} (path namespace : string) (net : Net T)
    (this : RackspaceSpotClient) :
  GET path namespace net this =
  match ensureAuthenticated net this with
  | (Ok _, this', sent) =>
      (api_fetch net, this',
       sent ++ [ApiGet (apiBaseUrl this') path namespace (authorization_header this')])
  | (Err e, this', sent) => (Err e, this', sent)
  end.
Proof.
  unfold GET, onRequest, mbind, M_bind, bind, get_this, send, await, ret. simpl.
  destruct (ensureAuthenticated net this) as [[[[]|e] this'] sent]; simpl; [|done].
  by rewrite ?app_nil_r.
Qed.

Lemma list_with_unfold {T : Type} (path what namespace : string) (net : Net T)
    (this : RackspaceSpotClient) :
  list_with path what namespace net this =
  match GET path namespace net this with
  | (Ok r, this', sent) =>
      (match error r with
       | val e =>
           if error_truthy e
           then Err {| message := "Failed to list " +:+ what +:+ ": "
                                    +:+ error_stringified e |}
           else Ok (data r)
       | _ => Ok (data r)
       end, this', sent)
  | (Err e, this', sent) => (Err e, this', sent)
  end.
Proof.
  unfold list_with, mbind, M_bind, bind, throw, ret.
  destruct (GET path namespace net this) as [[[r|e] this'] sent]; [|done].
  destruct (error r) as [| |e]; simpl; rewrite ?app_nil_r; try done.
  destruct (error_truthy e); simpl; by rewrite ?app_nil_r.
Qed.

Lemma exchanges_app (sent sent' : list Request) :
  exchanges (sent ++ sent') = (exchanges sent + exchanges sent')%nat.
Proof. unfold exchanges. by rewrite filter_app, length_app. Qed.

(** A request that reuses the cached token: nothing is exchanged, the
    client is unchanged and the one request sent is the GET, with the
    cached token as its bearer credential. *)
Lemma GET_reuse {T : Type} (path namespace : string) (net : Net T)
    (this : RackspaceSpotClient) :
  reusable this (now net) →
  GET path namespace net this =
  (api_fetch net, this,
   [ApiGet (apiBaseUrl this) path namespace (authorization_header this)]).
Proof. intros Hre. by rewrite GET_unfold, ensureAuthenticated_reuse. Qed.

(** A request that cannot reuse the cached token exchanges once. *)
Lemma GET_exchange {T : Type} (path namespace : string) (net : Net T)
    (this : RackspaceSpotClient) :
  ¬ reusable this (now net) → exchanges (GET path namespace net this).2 = 1%nat.
Proof.
  intros Hre. rewrite GET_unfold, ensureAuthenticated_exchange by done.
  pose proof (authenticate_sent net this) as Hsent.
  destruct (authenticate net this) as [[[[]|e] this'] sent]; simpl in *; subst sent; done.
Qed.

(** C3, as stated, fails when the token endpoint answers 200 with an
    empty [id_token]: a cached token then exists (the slot is not [null])
    and the request is made in the very millisecond the token was stored,
    a day before it expires, and yet the request exchanges again. *)
Lemma empty_token_not_reused :
  let first := listCloudSpaces "org-test" (world 1000 (token_200 EmptyString)) test_client in
  let this := first.1.2 in
  let second := listCloudSpaces "org-test" (world 1200 (token_200 EmptyString)) this in
  first.1.1 = Ok (val {| items := val [] |})
  ∧ accessToken this = Some EmptyString
  ∧ tokenExpiry this = 1200 + 86400 * 1000
  ∧ 1200 < tokenExpiry this - 60000
  ∧ exchanges first.2 = 1%nat
  ∧ exchanges second.2 = 1%nat.
Proof. vm_compute. repeat split. Qed.

(** C3, amended. [ensureAuthenticated] reuses the cached token, without
    a token exchange, exactly when a cached token that is not the empty
    string exists and [now < expiry - 60 s]; otherwise it exchanges once.
    In particular, after a successful exchange with [expires_in = 86400]
    and a non-empty [id_token], a request within the same second
    exchanges nothing, and a request at or after [expiry - 60 s] exchanges
    exactly once. *)
Theorem token_reuse_policy {T : Type} (net : Net T) (this : RackspaceSpotClient) :
  (exchanges (ensureAuthenticated net this).2 = 0%nat ↔ reusable this (now net))
  ∧ (reusable this (now net) → ensureAuthenticated net this = (Ok tt, this, []))
  ∧ (¬ reusable this (now net) → exchanges (ensureAuthenticated net this).2 = 1%nat)
  ∧ (∀ response data this' sent,
       token_fetch net = Ok response →
       json response = Ok data →
       authenticate net this = (Ok tt, this', sent) →
       expires_in data = 86400 →
       id_token data ≠ EmptyString →
       (∀ (U : Type) (next : Net U) (path namespace : string),
          (token_now net ≤ now next < token_now net + 1000)%Z →
          exchanges (GET path namespace next this').2 = 0%nat)
       ∧ (∀ (U : Type) (next : Net U) (path namespace : string),
          (tokenExpiry this' - 60000 ≤ now next)%Z →
          exchanges (GET path namespace next this').2 = 1%nat)).
Proof.
  assert (Hno : ¬ reusable this (now net) →
                exchanges (ensureAuthenticated net this).2 = 1%nat).
  { intros Hre. by rewrite ensureAuthenticated_exchange, authenticate_sent. }
  split; [|split; [|split]].
  - split.
    + intros Hzero. destruct (decide (truthy_string (accessToken this)
        && bool_decide (now net < tokenExpiry this - 60000) = true)) as [Hc|Hc].
      * by apply reusable_spec.
      * rewrite reusable_spec in Hc. rewrite (Hno Hc) in Hzero. discriminate.
    + intros Hre. by rewrite ensureAuthenticated_reuse.
  - apply ensureAuthenticated_reuse.
  - exact Hno.
  - intros response data this' sent Hfetch Hjson Hauth Hexp Htoken.
    rewrite authenticate_unfold, Hfetch in Hauth.
    destruct (ok response); [|done]. rewrite Hjson in Hauth.
    injection Hauth as <- _. split.
    + intros U next path namespace Hnext. rewrite GET_reuse; [done|].
      split; simpl; [by eexists | lia].
    + intros U next path namespace Hnext. apply GET_exchange.
      intros [_ Hlt]. simpl in *. lia.
Qed.

Lemma token_reuse_policy_witness :
  let this' := (authenticate (world (T:=CloudSpace) 1000 (token_200 "mock-id-token"))
                  test_client).1.2 in
  exchanges (GET "/apis/ngpc.rxt.io/v1/namespaces/{namespace}/cloudspaces" "org-test"
               (world (T:=CloudSpace) 1900 (token_200 "mock-id-token")) this').2 = 0%nat
  ∧ exchanges (GET "/apis/ngpc.rxt.io/v1/namespaces/{namespace}/cloudspaces" "org-test"
                 (world (T:=CloudSpace) 86341200 (token_200 "mock-id-token")) this').2
    = 1%nat.
Proof.
  intros this'.
  destruct (token_reuse_policy (world (T:=CloudSpace) 1000 (token_200 "mock-id-token"))
              test_client) as (_ & _ & _ & Hday).
  destruct (Hday (token_200 "mock-id-token")
              {| access_token := "mock-access-token"; id_token := "mock-id-token";
                 token_type := "Bearer"; expires_in := 86400; scope := "openid" |}
              this' [token_post test_client] eq_refl eq_refl eq_refl eq_refl)
    as [Hsame Hlate]; [discriminate|].
  split.
  - apply Hsame. simpl. lia.
  - apply Hlate. simpl. lia.
Defined.

(** C4, as stated, fails when the token endpoint answers 200 with an
    empty [id_token]: the exchange succeeds and stores the empty token,
    and the list request that follows it is sent with no [Authorization]
    header at all. *)
Lemma empty_token_no_header :
  listCloudSpaces "org-test" (world 1000 (token_200 EmptyString)) test_client =
  (Ok (val {| items := val [] |}),
   {| refreshToken := "test-refresh-token";
      apiBaseUrl := DEFAULT_API_BASE_URL;
      authBaseUrl := DEFAULT_AUTH_BASE_URL;
      accessToken := Some EmptyString;
      tokenExpiry := 1200 + 86400 * 1000 |},
   [token_post test_client;
    ApiGet DEFAULT_API_BASE_URL
      "/apis/ngpc.rxt.io/v1/namespaces/{namespace}/cloudspaces" "org-test" None]).
Proof. reflexivity. Qed.

(** C4, amended. After every successful token exchange the stored
    credential is the [id_token] of the response (not the
    [access_token]) and the stored expiry is the time of the exchange plus
    [expires_in] seconds. When that [id_token] is not the empty string,
    the request that caused the exchange and every later request that
    reuses the token carry it as [Authorization: Bearer <id_token>]. *)
Theorem bearer_is_id_token {T : Type} (net : Net T) (this this' : RackspaceSpotClient)
    (sent : list Request) :
  authenticate net this = (Ok tt, this', sent) →
  ∃ response data,
    token_fetch net = Ok response ∧ json response = Ok data
    ∧ accessToken this' = Some (id_token data)
    ∧ tokenExpiry this' = token_now net + expires_in data * 1000
    ∧ (id_token data ≠ EmptyString →
       (∀ path namespace : string,
          ¬ reusable this (now net) →
          GET path namespace net this =
          (api_fetch net, this',
           [token_post this;
            ApiGet (apiBaseUrl this) path namespace
              (Some ("Bearer " +:+ id_token data))]))
       ∧ (∀ (U : Type) (next : Net U) (path namespace : string),
          (now next < tokenExpiry this' - 60000)%Z →
          GET path namespace next this' =
          (api_fetch next, this',
           [ApiGet (apiBaseUrl this) path namespace
              (Some ("Bearer " +:+ id_token data))]))).
Proof.
  intros Hauth. pose proof Hauth as Hauth'.
  rewrite authenticate_unfold in Hauth.
  destruct (token_fetch net) as [response|]; [|done].
  destruct (ok response); [|done].
  destruct (json response) as [data|] eqn:Hjson; [|done].
  injection Hauth as <- <-.
  exists response, data.
  split; [done|]. split; [done|]. split; [done|]. split; [done|].
  intros Htoken. split.
  - intros path namespace Hre.
    rewrite GET_unfold, ensureAuthenticated_exchange, Hauth' by done.
    unfold authorization_header. simpl. by rewrite decide_False.
  - intros U next path namespace Hnext. rewrite GET_reuse.
    + unfold authorization_header. simpl. by rewrite decide_False.
    + split; simpl; [by eexists | done].
Qed.

Lemma bearer_is_id_token_witness :
  ∃ this', 
    accessToken this' = Some "mock-id-token"
    ∧ tokenExpiry this' = 1200 + 86400 * 1000
    ∧ (GET "/apis/ngpc.rxt.io/v1/namespaces/{namespace}/spotnodepools" "org-test"
         (world (T:=SpotNodePool) 5000 (token_200 "other")) this').2
      = [ApiGet DEFAULT_API_BASE_URL
           "/apis/ngpc.rxt.io/v1/namespaces/{namespace}/spotnodepools" "org-test"
           (Some "Bearer mock-id-token")].
Proof.
  destruct (bearer_is_id_token (world (T:=CloudSpace) 1000 (token_200 "mock-id-token"))
              test_client _ _ eq_refl)
    as (response & data & Hfetch & Hjson & Htoken & Hexpiry & Hcarry).
  injection Hfetch as <-. injection Hjson as <-.
  eexists. split; [exact Htoken|]. split; [exact Hexpiry|].
  destruct Hcarry as [_ Hlater]; [discriminate|].
  rewrite (Hlater SpotNodePool (world 5000 (token_200 "other"))); [reflexivity|].
  simpl. lia.
Defined.

(** C5. For every non-success status of the token endpoint the token
    exchange fails with an error whose message starts with
    ["Failed to authenticate"] and carries the status code and the body
    of the response; each of the three list calls that needs the exchange
    fails with that very error, after a single request to the token
    endpoint (no retry) and without any request to the API. *)
Theorem authentication_failure_propagates (this : RackspaceSpotClient)
    (response : TokenResponse) (namespace : string) :
  ¬ (200 ≤ status response ≤ 299)%Z →
  let failure := {| message := "Failed to authenticate: " +:+ pretty (status response)
                                 +:+ " - " +:+ text response |} in
  (∀ (T : Type) (net : Net T),
     token_fetch net = Ok response →
     authenticate net this = (Err failure, this, [token_post this]))
  ∧ (∀ net, token_fetch net = Ok response → ¬ reusable this (now net) →
       listCloudSpaces namespace net this = (Err failure, this, [token_post this]))
  ∧ (∀ net, token_fetch net = Ok response → ¬ reusable this (now net) →
       listSpotNodePools namespace net this = (Err failure, this, [token_post this]))
  ∧ (∀ net, token_fetch net = Ok response → ¬ reusable this (now net) →
       listOnDemandNodePools namespace net this = (Err failure, this, [token_post this]))
  ∧ (∃ rest, message failure = "Failed to authenticate" +:+ rest).
Proof.
  intros Hstatus failure.
  assert (Hok : ok response = false) by (by apply bool_decide_eq_false).
  assert (Hauth : ∀ (T : Type) (net : Net T), token_fetch net = Ok response →
            authenticate net this = (Err failure, this, [token_post this])).
  { intros T net Hfetch. by rewrite authenticate_unfold, Hfetch, Hok. }
  assert (Hlist : ∀ (T : Type) (path what : string) (net : Net T),
            token_fetch net = Ok response → ¬ reusable this (now net) →
            list_with path what namespace net this
            = (Err failure, this, [token_post this])).
  { intros T path what net Hfetch Hre.
    by rewrite list_with_unfold, GET_unfold, ensureAuthenticated_exchange, Hauth. }
  split; [exact Hauth|].
  split; [intros; by apply Hlist|]. split; [intros; by apply Hlist|].
  split; [intros; by apply Hlist|].
  by exists (": " +:+ pretty (status response) +:+ " - " +:+ text response).
Qed.

Lemma authentication_failure_propagates_witness :
  listCloudSpaces "org-test" (world 1000 token_401) test_client
  = (Err {| message := "Failed to authenticate: 401 - {error:Invalid refresh token}" |},
     test_client, [token_post test_client]).
Proof.
  destruct (authentication_failure_propagates test_client token_401 "org-test")
    as (_ & Hcs & _).
  - simpl. lia.
  - apply Hcs; [reflexivity|]. intros [(token & Htoken & _) _]. discriminate Htoken.
Defined.

End ApiClientProps.

(** * Properties of the collection loop *)

Module ExporterProps.
Import Exporter.

Lemma guarded_boot : guarded boot.
Proof. left. split; [done|]. by exists 0%nat. Qed.

Lemma guarded_enter (s : Loop) : guarded s → guarded (collectMetrics_enter s).
Proof.
  unfold collectMetrics_enter. intros [[Hflag Hpass]|[Hflag Hnone]]; rewrite Hflag.
  - left. done.
  - left. simpl. split; [done|]. rewrite Hnone. by eexists.
Qed.

Lemma guarded_resume (pass : nat) (outcome : result unit) (s : Loop) :
  guarded s → pass ∈ pending s → guarded (collectMetrics_resume pass outcome s).
Proof.
  intros [[_ [p Hp]]|[_ Hnone]] Hin; right; simpl; (split; [done|]).
  - rewrite Hp in *. apply list_elem_of_singleton in Hin as ->.
    rewrite filter_cons_False; [done|]. intros H. by apply H.
  - rewrite Hnone in Hin. by apply elem_of_nil in Hin.
Qed.

Lemma guarded_step (s s' : Loop) (ev : Event) :
  guarded s → step s ev = Some s' → guarded s'.
Proof.
  intros Hg. destruct ev as [|pass outcome]; simpl.
  - destruct (timer s); [|done]. intros [= <-]. by apply guarded_enter.
  - case_bool_decide as Hin; [|done]. intros [= <-].
    pose proof (guarded_resume pass outcome s Hg Hin) as Hg'.
    by destruct (timer s).
Qed.

Lemma guarded_run (evs : list Event) (s s' : Loop) :
  guarded s → run s evs = Some s' → guarded s'.
Proof.
  revert s. induction evs as [|ev evs IH]; intros s Hg; simpl.
  - by intros [= <-].
  - destruct (step s ev) as [s1|] eqn:Hstep; [|done].
    apply IH. by eapply guarded_step.
Qed.

(** C7. In every state that the loop can reach, at most one collection
    pass is in flight, and a tick that fires while one is in flight does
    nothing but log: it starts no pass, it leaves the pass in flight
    pending, and the flag and the timer are as they were. *)
Theorem overlap_guard (evs : list Event) (s : Loop) :
  run boot evs = Some s →
  (length (pending s) ≤ 1)%nat
  ∧ (pending s ≠ [] →
     collectMetrics_enter s = skipped s
     ∧ ∀ s', step s Tick = Some s' →
         pending s' = pending s ∧ started s' = started s
         ∧ isCollecting s' = isCollecting s ∧ timer s' = timer s).
Proof.
  intros Hrun. pose proof (guarded_run evs boot s guarded_boot Hrun) as Hg.
  split.
  - destruct Hg as [[_ [p ->]]|[_ ->]]; simpl; lia.
  - intros Hbusy.
    assert (Henter : collectMetrics_enter s = skipped s).
    { unfold collectMetrics_enter, skipped.
      destruct Hg as [[Hflag _]|[_ Hnone]]; [by rewrite Hflag | done]. }
    split; [done|]. intros s'. simpl. rewrite Henter.
    destruct (timer s) eqn:Htimer; [|done]. intros [= <-]. by simpl.
Qed.

Lemma overlap_guard_witness :
  let s := {| isCollecting := true; pending := [1%nat]; started := 2%nat; timer := true;
              console := [LogInitial; LogCollected] |} in
  run boot busy_history = Some s
  ∧ (length (pending s) ≤ 1)%nat
  ∧ step s Tick = Some (skipped s).
Proof.
  intros s.
  destruct (overlap_guard busy_history s eq_refl) as [Hone Hbusy].
  split; [reflexivity|]. split; [exact Hone|].
  destruct Hbusy as [Henter _]; [discriminate|].
  simpl. by rewrite Henter.
Defined.

End ExporterProps.

(** * Further properties of the collector *)

Module CollectorMore.
Import Collector CollectorProps Registration.

Lemma elem_of_family_writes {T : Type} (writes : T → list SetCall)
    (listed : ListOutcome T) (w : SetCall) :
  w ∈ family_writes writes listed ↔ ∃ x, x ∈ listed_items listed ∧ w ∈ writes x.
Proof.
  unfold family_writes. rewrite list_elem_of_In, in_flat_map.
  split; intros [x [Hx Hw]]; exists x; by rewrite ?list_elem_of_In in *.
Qed.

Lemma elem_of_pass_writes org l (w : SetCall) :
  w ∈ pass_writes org l ↔
  (∃ c, c ∈ listed_items (listed_cloudSpaces l) ∧ w ∈ cloudSpace_writes org c)
  ∨ (∃ p, p ∈ listed_items (listed_spotNodePools l) ∧ w ∈ spotNodePool_writes org p)
  ∨ (∃ p, p ∈ listed_items (listed_onDemandNodePools l)
          ∧ w ∈ onDemandNodePool_writes org p).
Proof.
  unfold pass_writes. by rewrite !elem_of_app, !elem_of_family_writes.
Qed.

(** Every [set] call of a pass is made on one of the five gauges that
    the constructor registered, names exactly the labels that gauge was
    created with (so the label check of [set] accepts it), and gives the
    organization as the [namespace] label. *)
Theorem set_calls_fit_gauges org l (w : SetCall) :
  w ∈ pass_writes org l →
  (∃ g, g ∈ constructor_gauges ∧ gauge_name g = w.1.1
        ∧ w.1.2.*1 = labelNames g ∧ labels_accepted g w.1.2 = true)
  ∧ w.1.2 !! 0%nat = Some ("namespace", org).
Proof.
  intros Hw. apply elem_of_pass_writes in Hw.
  destruct Hw as [(c & _ & Hw)|[(p & _ & Hw)|(p & _ & Hw)]];
    apply list_elem_of_In in Hw; simpl in Hw.
  - destruct Hw as [<-|[]]. split; [|done].
    eexists. split; [apply list_elem_of_In; left; reflexivity | done].
  - destruct Hw as [<-|[<-|[]]]; (split; [|done]); eexists.
    + split; [apply list_elem_of_In; right; left; reflexivity | done].
    + split; [apply list_elem_of_In; right; right; left; reflexivity | done].
  - destruct Hw as [<-|[<-|[]]]; (split; [|done]); eexists.
    + split; [apply list_elem_of_In; do 3 right; left; reflexivity | done].
    + split; [apply list_elem_of_In; do 4 right; left; reflexivity | done].
Qed.

Lemma set_calls_fit_gauges_witness :
  ∃ g, g ∈ constructor_gauges
       ∧ gauge_name g = spotNodePoolWonCountGauge
       ∧ (sp_won_labels Scenarios.org (Scenarios.spot_pool_1 5)).*1 = labelNames g.
Proof.
  destruct (set_calls_fit_gauges Scenarios.org Scenarios.pass_full
              ((spotNodePoolWonCountGauge,
                sp_won_labels Scenarios.org (Scenarios.spot_pool_1 5)), 3))
    as [(g & Hg & Hname & Hlabels & _) _].
  - apply list_elem_of_In. simpl. right. right. left. reflexivity.
  - exists g. split; [exact Hg|]. split; [exact Hname | exact Hlabels].
Defined.

(** The registry after a list of [set] calls, as a function of the
    sample. *)
Lemma apply_writes_twice (ws : list SetCall) (reg : Registry) :
  apply_writes ws (apply_writes ws reg) = apply_writes ws reg.
Proof.
  apply map_eq. intros k. rewrite !apply_writes_lookup.
  by destruct (last_write k ws).
Qed.

(** Collecting the same responses twice in a row leaves the registry as
    collecting them once does: a pass only overwrites, it never adds up. *)
Theorem collect_idempotent org l reg :
  (collect org l (collect org l reg).2).2 = (collect org l reg).2.
Proof. rewrite !collect_unfold. simpl. apply apply_writes_twice. Qed.

Lemma last_write_family_metric {T : Type} (writes : T → list SetCall)
    (metrics : list string) (listed : ListOutcome T) (k : SampleKey) (v : Z) :
  (∀ x w, w ∈ writes x → w.1.1 ∈ metrics) →
  last_write k (family_writes writes listed) = Some v → k.1 ∈ metrics.
Proof.
  intros Hm Hlast. eapply family_writes_metric; [exact Hm|].
  apply last_write_Some in Hlast. apply list_elem_of_fmap. by exists (k, v).
Qed.

(** Two lists of [set] calls on different gauges can be applied in
    either order. *)
Lemma apply_writes_comm (ws1 ws2 : list SetCall) (reg : Registry) :
  (∀ k v1 v2, last_write k ws1 = Some v1 → last_write k ws2 = Some v2 → False) →
  apply_writes ws1 (apply_writes ws2 reg) = apply_writes ws2 (apply_writes ws1 reg).
Proof.
  intros Hdisj. apply map_eq. intros k. rewrite !apply_writes_lookup.
  destruct (last_write k ws1) as [v1|] eqn:H1, (last_write k ws2) as [v2|] eqn:H2;
    try done.
  by destruct (Hdisj k v1 v2).
Qed.

(** The three family collectors commute: whichever of the three list
    calls settles first, the registry after the pass is the same. *)
Theorem family_collectors_commute org cs sp od reg :
  (collectCloudSpaceMetrics org cs (collectSpotNodePoolMetrics org sp reg).2).2
  = (collectSpotNodePoolMetrics org sp (collectCloudSpaceMetrics org cs reg).2).2
  ∧ (collectCloudSpaceMetrics org cs (collectOnDemandNodePoolMetrics org od reg).2).2
    = (collectOnDemandNodePoolMetrics org od (collectCloudSpaceMetrics org cs reg).2).2
  ∧ (collectSpotNodePoolMetrics org sp (collectOnDemandNodePoolMetrics org od reg).2).2
    = (collectOnDemandNodePoolMetrics org od (collectSpotNodePoolMetrics org sp reg).2).2.
Proof.
  rewrite !collectCloudSpaceMetrics_writes, !collectSpotNodePoolMetrics_writes,
    !collectOnDemandNodePoolMetrics_writes.
  split; [|split]; apply apply_writes_comm; intros k v1 v2 H1 H2.
  - apply (last_write_family_metric _ _ _ _ _ (cloudSpace_writes_metric org)) in H1.
    apply (last_write_family_metric _ _ _ _ _ (spotNodePool_writes_metric org)) in H2.
    destruct k as [metric labels]. metric_names.
  - apply (last_write_family_metric _ _ _ _ _ (cloudSpace_writes_metric org)) in H1.
    apply (last_write_family_metric _ _ _ _ _ (onDemandNodePool_writes_metric org)) in H2.
    destruct k as [metric labels]. metric_names.
  - apply (last_write_family_metric _ _ _ _ _ (spotNodePool_writes_metric org)) in H1.
    apply (last_write_family_metric _ _ _ _ _ (onDemandNodePool_writes_metric org)) in H2.
    destruct k as [metric labels]. metric_names.
Qed.

Lemma apply_writes_dom (ws : list SetCall) (reg : Registry) :
  dom (apply_writes ws reg) = dom reg ∪ list_to_set ws.*1.
Proof.
  induction ws as [|w ws IH] using rev_ind.
  - change (dom reg = dom reg ∪ ∅). by rewrite (right_id_L ∅ (∪)).
  - rewrite apply_writes_snoc, dom_insert_L, IH, fmap_app, list_to_set_app_L.
    change (list_to_set [w].*1) with ({[w.1]} ∪ (∅ : gset SampleKey)).
    rewrite (right_id_L ∅ (∪)), (comm_L (∪) {[w.1]}).
    by rewrite (assoc_L (∪)).
Qed.

(** A pass never removes a sample: the samples of the registry after a
    pass are those it had before together with the label combinations of
    the pass. *)
Theorem collect_dom (org : string) (l : Listed) (reg : Registry) :
  dom (collect org l reg).2 = dom reg ∪ list_to_set (pass_keys org l).
Proof. rewrite collect_unfold. apply apply_writes_dom. Qed.

Lemma settle_all_writes (org : string) (settlements : list Settlement)
    (reg : Registry) :
  settle_all org settlements reg
  = apply_writes (flat_map (settlement_writes org) settlements) reg.
Proof.
  unfold settle_all. revert reg.
  induction settlements as [|s settlements IH]; intros reg; simpl; [done|].
  by rewrite IH, settle_writes, apply_writes_app.
Qed.

Lemma last_write_later_settlements (org : string) (post : list Settlement)
    (k : SampleKey) :
  (∀ s', s' ∈ post → k ∉ (settlement_writes org s').*1) →
  last_write k (flat_map (settlement_writes org) post) = None.
Proof.
  intros Hpost. apply last_write_None. intros Hin.
  apply list_elem_of_fmap in Hin as [w [-> Hw]].
  apply list_elem_of_In, in_flat_map in Hw as [s' [Hs' Hw]].
  apply list_elem_of_In in Hs', Hw. apply (Hpost s' Hs').
  apply list_elem_of_fmap. by exists w.
Qed.

(** Whatever the order in which the family collectors of any number of
    passes ran, a sample shows what the last run that named it gave it:
    what that run alone would publish for it. The runs before it do not
    matter, nor do later runs that do not name the sample, be they of
    the same pass, of a later pass or of an earlier pass that was
    rejected. *)
Theorem last_naming_run_wins (org : string) (pre post : list Settlement)
    (s : Settlement) (reg : Registry) (k : SampleKey) :
  k ∈ (settlement_writes org s).*1 →
  (∀ s', s' ∈ post → k ∉ (settlement_writes org s').*1) →
  settle_all org (pre ++ s :: post) reg !! k = settle org ∅ s !! k.
Proof.
  intros Hk Hpost.
  rewrite settle_all_writes, settle_writes, flat_map_app. simpl.
  rewrite !apply_writes_lookup, !last_write_app.
  rewrite (last_write_later_settlements org post k Hpost).
  destruct (last_write k (settlement_writes org s)) eqn:Hlast; [done|].
  by apply last_write_None in Hlast.
Qed.

(** A spot pool collector of a rejected pass that runs after the
    collectors of the next pass overwrites what that pass wrote. *)
Lemma last_naming_run_wins_witness :
  settle_all Scenarios.org
    [CloudSpacesSettled (listed_cloudSpaces Scenarios.pass_full);
     SpotNodePoolsSettled (listed_spotNodePools Scenarios.pass_full);
     SpotNodePoolsSettled (listed_spotNodePools Scenarios.pass_partial);
     OnDemandNodePoolsSettled (listed_onDemandNodePools Scenarios.pass_full)] ∅
    !! (spotNodePoolDesiredGauge,
        sp_desired_labels Scenarios.org (Scenarios.spot_pool_1 7))
  = settle Scenarios.org ∅
      (SpotNodePoolsSettled (listed_spotNodePools Scenarios.pass_partial))
      !! (spotNodePoolDesiredGauge,
          sp_desired_labels Scenarios.org (Scenarios.spot_pool_1 7)).
Proof.
  apply (last_naming_run_wins Scenarios.org
           [CloudSpacesSettled (listed_cloudSpaces Scenarios.pass_full);
            SpotNodePoolsSettled (listed_spotNodePools Scenarios.pass_full)]
           [OnDemandNodePoolsSettled (listed_onDemandNodePools Scenarios.pass_full)]
           (SpotNodePoolsSettled (listed_spotNodePools Scenarios.pass_partial))).
  - apply list_elem_of_In. simpl. left. reflexivity.
  - intros s' Hs'. apply list_elem_of_singleton in Hs' as ->.
    intros H. apply list_elem_of_In in H. vm_compute in H. destruct H.
Defined.

(** A spot pool whose bid status changes between two passes keeps its
    old [won_count] sample: when no item of the new response carries the
    pool's labels together with the old bid status, the spot pool
    collector leaves the old sample at its old value, and it writes the
    sample with the new status beside it. *)
Theorem bid_status_change_keeps_old_sample org l reg body
    (pre post : list SpotNodePool) (p p' : SpotNodePool) (v : Z) :
  listed_spotNodePools l = Ok body →
  body ?. items = val (pre ++ p' :: post) →
  (∀ q, q ∈ pre ++ p' :: post →
        sp_desired_labels org q = sp_desired_labels org p →
        sp_bidStatus q ≠ sp_bidStatus p) →
  (∀ q, q ∈ post → sp_won_labels org q ≠ sp_won_labels org p') →
  reg !! (spotNodePoolWonCountGauge, sp_won_labels org p) = Some v →
  (collect org l reg).2 !! (spotNodePoolWonCountGauge, sp_won_labels org p) = Some v
  ∧ (collect org l reg).2 !! (spotNodePoolWonCountGauge, sp_won_labels org p')
    = Some (sp_wonCount p').
Proof.
  intros Hl Hits Hstatus Hlast Hold.
  assert (Hcs : ∀ k, k.1 = spotNodePoolWonCountGauge →
    last_write k (family_writes (cloudSpace_writes org) (listed_cloudSpaces l)) = None).
  { intros k Hk. eapply last_write_other_family; [apply cloudSpace_writes_metric|].
    rewrite Hk. metric_names. }
  assert (Hod : ∀ k, k.1 = spotNodePoolWonCountGauge →
    last_write k (family_writes (onDemandNodePool_writes org)
                    (listed_onDemandNodePools l)) = None).
  { intros k Hk. eapply last_write_other_family; [apply onDemandNodePool_writes_metric|].
    rewrite Hk. metric_names. }
  assert (Hnot : ∀ (its : list SpotNodePool) labels,
    (∀ q, q ∈ its → sp_won_labels org q ≠ labels) →
    last_write (spotNodePoolWonCountGauge, labels)
      (flat_map (spotNodePool_writes org) its) = None).
  { intros its labels Hits'. apply last_write_None. intros Hin.
    apply list_elem_of_fmap in Hin as [w [Hk Hw]].
    apply list_elem_of_In, in_flat_map in Hw as [q [Hq Hw]].
    apply list_elem_of_In in Hq. apply (Hits' q Hq).
    simpl in Hw. destruct Hw as [<-|[<-|[]]]; simpl in Hk; [discriminate Hk|].
    congruence. }
  rewrite collect_unfold. simpl. rewrite !apply_writes_lookup.
  unfold pass_writes. rewrite !last_write_app, !Hod, !Hcs by done.
  unfold family_writes, listed_items. rewrite Hl, Hits.
  split.
  - rewrite Hnot; [exact Hold|].
    intros q Hq Heq. apply (Hstatus q Hq).
    + unfold sp_won_labels, sp_desired_labels in *. congruence.
    + unfold sp_won_labels in Heq. congruence.
  - rewrite flat_map_app. simpl. rewrite last_write_app. simpl.
    rewrite (Hnot post _ Hlast). by rewrite decide_True.
Qed.

Lemma bid_status_change_keeps_old_sample_witness :
  let lost := {| sp_metadata := sp_metadata (Scenarios.spot_pool_1 5);
                 sp_spec := sp_spec (Scenarios.spot_pool_1 5);
                 sp_status := val {| wonCount := val 0; bidStatus := val "lost" |} |} in
  let l := {| listed_cloudSpaces := Ok undefined;
              listed_spotNodePools :=
                Ok (val {| items := val [Scenarios.bare_spot_pool; lost] |});
              listed_onDemandNodePools := Ok undefined |} in
  let after := (collect Scenarios.org l (collect Scenarios.org Scenarios.pass_full ∅).2).2 in
  after !! (spotNodePoolWonCountGauge,
            sp_won_labels Scenarios.org (Scenarios.spot_pool_1 5)) = Some 3
  ∧ after !! (spotNodePoolWonCountGauge, sp_won_labels Scenarios.org lost) = Some 0.
Proof.
  intros lost l after.
  apply (bid_status_change_keeps_old_sample Scenarios.org l _
           (val {| items := val [Scenarios.bare_spot_pool; lost] |})
           [Scenarios.bare_spot_pool] [] (Scenarios.spot_pool_1 5) lost 3
           eq_refl eq_refl).
  - intros q Hq Hsame. apply list_elem_of_In in Hq. simpl in Hq.
    destruct Hq as [<-|[<-|[]]]; [discriminate Hsame | discriminate].
  - intros q Hq. inversion Hq.
  - reflexivity.
Defined.

(** [collect()] rejects with the very error of one of its list calls:
    nothing is wrapped or replaced on the way. *)
Theorem collect_rethrows org l reg (e : Error) :
  (collect org l reg).1 = Err e →
  listed_cloudSpaces l = Err e
  ∨ listed_spotNodePools l = Err e
  ∨ listed_onDemandNodePools l = Err e.
Proof.
  rewrite collect_unfold. simpl.
  destruct (listed_cloudSpaces l), (listed_spotNodePools l),
    (listed_onDemandNodePools l); simpl; intros [= <-]; auto.
Qed.

Lemma collect_rethrows_witness :
  listed_cloudSpaces Scenarios.pass_partial = Err {| message := "API Error" |}
  ∨ listed_spotNodePools Scenarios.pass_partial = Err {| message := "API Error" |}
  ∨ listed_onDemandNodePools Scenarios.pass_partial = Err {| message := "API Error" |}.
Proof.
  apply (collect_rethrows Scenarios.org Scenarios.pass_partial ∅). reflexivity.
Defined.

End CollectorMore.

(** * Further properties of the API client *)

Module ApiClientMore.
Import ApiClient ApiClientProps Session.

(** The three ways [ensureAuthenticated] can go. *)
Lemma ensureAuthenticated_cases {T : Type} (net : Net T) (this : RackspaceSpotClient) :
  (reusable this (now net) ∧ ensureAuthenticated net this = (Ok tt, this, []))
  ∨ (¬ reusable this (now net)
     ∧ ∃ e, ensureAuthenticated net this = (Err e, this, [token_post this]))
  ∨ (¬ reusable this (now net)
     ∧ ∃ this', ensureAuthenticated net this = (Ok tt, this', [token_post this])
                ∧ refreshToken this' = refreshToken this
                ∧ apiBaseUrl this' = apiBaseUrl this
                ∧ authBaseUrl this' = authBaseUrl this).
Proof.
  destruct (decide (truthy_string (accessToken this)
              && bool_decide (now net < tokenExpiry this - 60000) = true)) as [Hc|Hc];
    rewrite reusable_spec in Hc.
  - left. split; [done|]. by apply ensureAuthenticated_reuse.
  - right. rewrite ensureAuthenticated_exchange, authenticate_unfold by done.
    destruct (token_fetch net) as [response|e]; [|left; eauto].
    destruct (ok response); [|left; eauto].
    destruct (json response) as [data|e]; [|left; eauto].
    right. split; [done|]. eexists. split; [reflexivity|]. done.
Qed.

(** Whatever makes the token exchange fail (the request itself, a
    status outside 200..299, a body that is not JSON), the list call fails
    with that error, no request reaches the API, and the client keeps the
    token and the expiry it had. *)
Theorem failed_exchange_stops_call {T : Type} (path what namespace : string)
    (net : Net T) (this : RackspaceSpotClient) (e : Error) :
  (ensureAuthenticated net this).1.1 = Err e →
  list_with path what namespace net this = (Err e, this, [token_post this]).
Proof.
  intros Hfail. rewrite list_with_unfold, GET_unfold.
  destruct (ensureAuthenticated_cases net this)
    as [[_ Heq]|[[_ [e' Heq]]|[_ (this' & Heq & _)]]];
    rewrite Heq in *; simpl in Hfail; try discriminate.
  by injection Hfail as <-.
Qed.

Lemma failed_exchange_stops_call_witness :
  listSpotNodePools "org-test"
    {| now := 1000;
       token_fetch := Err {| message := "fetch failed" |};
       token_now := 1200;
       api_fetch := Ok {| data := undefined; error := undefined |} |}
    test_client
  = (Err {| message := "fetch failed" |}, test_client, [token_post test_client]).
Proof.
  apply (failed_exchange_stops_call
           "/apis/ngpc.rxt.io/v1/namespaces/{namespace}/spotnodepools" "spot node pools").
  reflexivity.
Defined.

(** What one list call leaves behind, by the way its authentication
    went. *)
Lemma list_with_sent {T : Type} (path what namespace : string) (net : Net T)
    (this : RackspaceSpotClient) :
  let this' := (list_with path what namespace net this).1.2 in
  let sent := (list_with path what namespace net this).2 in
  refreshToken this' = refreshToken this
  ∧ apiBaseUrl this' = apiBaseUrl this
  ∧ authBaseUrl this' = authBaseUrl this
  ∧ ((reusable this (now net)
      ∧ sent = [ApiGet (apiBaseUrl this) path namespace (authorization_header this')])
     ∨ (¬ reusable this (now net) ∧ sent = [token_post this])
     ∨ (¬ reusable this (now net)
        ∧ sent = [token_post this;
                  ApiGet (apiBaseUrl this) path namespace (authorization_header this')])).
Proof.
  rewrite list_with_unfold, GET_unfold.
  destruct (ensureAuthenticated_cases net this)
    as [[Hre Heq]|[[Hre [e' Heq]]|[Hre (this' & Heq & Hr & Ha & Hu)]]]; rewrite Heq.
  - destruct (api_fetch net) as [r|]; simpl; auto 8.
  - simpl. repeat split; auto.
  - destruct (api_fetch net) as [r|]; simpl; rewrite Ha; repeat split; auto.
Qed.

(** One list call sends at most one request to the token endpoint and at
    most one to the API, the first before the second; the refresh token
    and the two base URLs of the client are never changed. *)
Theorem call_shape {T : Type} (path what namespace : string) (net : Net T)
    (this : RackspaceSpotClient) :
  let this' := (list_with path what namespace net this).1.2 in
  let sent := (list_with path what namespace net this).2 in
  refreshToken this' = refreshToken this
  ∧ apiBaseUrl this' = apiBaseUrl this
  ∧ authBaseUrl this' = authBaseUrl this
  ∧ (sent = [ApiGet (apiBaseUrl this) path namespace (authorization_header this')]
     ∨ sent = [token_post this]
     ∨ sent = [token_post this;
               ApiGet (apiBaseUrl this) path namespace (authorization_header this')]).
Proof.
  destruct (list_with_sent path what namespace net this)
    as (Hr & Ha & Hu & [[_ Hs]|[[_ Hs]|[_ Hs]]]); auto 6.
Qed.

(** A truthy error body makes the list call fail with a message that
    names the list and carries the body; an error body that is falsy is
    not reported: the call then resolves with [data]. *)
Theorem list_outcome {T : Type} (path what namespace : string) (net : Net T)
    (this : RackspaceSpotClient) (r : GetResult T) :
  (ensureAuthenticated net this).1.1 = Ok tt →
  api_fetch net = Ok r →
  (∀ e, error r = val e → error_truthy e = true →
     (list_with path what namespace net this).1.1
     = Err {| message := "Failed to list " +:+ what +:+ ": " +:+ error_stringified e |})
  ∧ ((∀ e, error r = val e → error_truthy e = false) →
     (list_with path what namespace net this).1.1 = Ok (data r)).
Proof.
  intros Hauth Hfetch. rewrite list_with_unfold, GET_unfold.
  destruct (ensureAuthenticated net this) as [[[[]|e'] this'] sent];
    simpl in Hauth; [|discriminate].
  rewrite Hfetch. simpl. split.
  - intros e -> ->. done.
  - intros Hfalsy. destruct (error r) as [| |e]; try done.
    by rewrite (Hfalsy e eq_refl).
Qed.

Lemma list_outcome_witness :
  (listCloudSpaces "org-test"
     {| now := 1000;
        token_fetch := Ok (token_200 "mock-id-token");
        token_now := 1200;
        api_fetch := Ok {| data := undefined;
                           error := val {| error_truthy := false;
                                           error_stringified := "0" |} |} |}
     test_client).1.1 = Ok undefined.
Proof.
  set (net := {| now := 1000; token_fetch := Ok (token_200 "mock-id-token");
                 token_now := 1200;
                 api_fetch := Ok {| data := undefined;
                                    error := val {| error_truthy := false;
                                                    error_stringified := "0" |} |} |}).
  destruct (list_outcome "/apis/ngpc.rxt.io/v1/namespaces/{namespace}/cloudspaces"
              "cloudspaces" "org-test" net test_client
              {| data := undefined;
                 error := val {| error_truthy := false; error_stringified := "0" |} |}
              eq_refl eq_refl) as [_ Hfalsy].
  apply Hfalsy. intros e [= <-]. reflexivity.
Defined.

(** A list call that fails at the API, after it obtained a token, does
    not throw the token away: the client keeps it, and a later call made
    while it can be reused exchanges nothing. *)
Theorem api_error_keeps_token {T : Type} (path what namespace : string) (net : Net T)
    (this this' : RackspaceSpotClient) (sent : list Request) (r : GetResult T)
    (e : ErrorBody) :
  ¬ reusable this (now net) →
  authenticate net this = (Ok tt, this', sent) →
  api_fetch net = Ok r →
  error r = val e →
  error_truthy e = true →
  (list_with path what namespace net this).1
  = (Err {| message := "Failed to list " +:+ what +:+ ": " +:+ error_stringified e |},
     this')
  ∧ ∀ (U : Type) (next : Net U) (path' what' namespace' : string),
      reusable this' (now next) →
      exchanges (list_with path' what' namespace' next this').2 = 0%nat.
Proof.
  intros Hre Hauth Hfetch Herror Htruthy. split.
  - rewrite list_with_unfold, GET_unfold, ensureAuthenticated_exchange, Hauth by done.
    by rewrite Hfetch, Herror, Htruthy.
  - intros U next path' what' namespace' Hnext.
    rewrite list_with_unfold, GET_reuse by done.
    destruct (api_fetch next) as [r'|]; done.
Qed.

Lemma api_error_keeps_token_witness :
  let net : Net CloudSpace :=
    {| now := 1000;
       token_fetch := Ok (token_200 "mock-id-token");
       token_now := 1200;
       api_fetch := Ok {| data := undefined;
                          error := val {| error_truthy := true;
                                          error_stringified := "{code:500}" |} |} |} in
  let this' := (listCloudSpaces "org-test" net test_client).1.2 in
  (listCloudSpaces "org-test" net test_client).1.1
  = Err {| message := "Failed to list cloudspaces: {code:500}" |}
  ∧ exchanges (listSpotNodePools "org-test" (world 2000 (token_200 "other")) this').2
    = 0%nat.
Proof.
  intros net this'.
  destruct (api_error_keeps_token
              "/apis/ngpc.rxt.io/v1/namespaces/{namespace}/cloudspaces" "cloudspaces"
              "org-test" net test_client this' [token_post test_client]
              {| data := undefined;
                 error := val {| error_truthy := true;
                                 error_stringified := "{code:500}" |} |}
              {| error_truthy := true; error_stringified := "{code:500}" |})
    as [Hfail Hnext]; try reflexivity.
  - intros [(token & Htoken & _) _]. discriminate Htoken.
  - split.
    + exact (f_equal fst Hfail).
    + apply (Hnext SpotNodePool (world 2000 (token_200 "other"))).
      split; [by eexists | simpl; lia].
Defined.

(** A token that lives 60 seconds or less is never reused: every request
    made after it was stored exchanges again. *)
Theorem short_lived_token_never_reused {T : Type} (net : Net T)
    (this this' : RackspaceSpotClient) (sent : list Request)
    (response : TokenResponse) (data : OAuthTokenResponse) :
  authenticate net this = (Ok tt, this', sent) →
  token_fetch net = Ok response →
  json response = Ok data →
  (expires_in data ≤ 60)%Z →
  ∀ (U : Type) (next : Net U) (path namespace : string),
    (token_now net ≤ now next)%Z →
    exchanges (GET path namespace next this').2 = 1%nat.
Proof.
  intros Hauth Hfetch Hjson Hshort U next path namespace Hlater.
  rewrite authenticate_unfold, Hfetch in Hauth.
  destruct (ok response); [|done]. rewrite Hjson in Hauth.
  injection Hauth as <- _.
  apply GET_exchange. intros [_ Hlt]. simpl in Hlt. lia.
Qed.

Lemma short_lived_token_never_reused_witness :
  let minute := {| status := 200; text := "{...}";
                   json := Ok {| access_token := "a"; id_token := "t";
                                 token_type := "Bearer"; expires_in := 60;
                                 scope := "openid" |} |} in
  let this' := (authenticate (world (T:=CloudSpace) 1000 minute) test_client).1.2 in
  exchanges (GET "/apis/ngpc.rxt.io/v1/namespaces/{namespace}/cloudspaces" "org-test"
               (world (T:=CloudSpace) 1200 minute) this').2 = 1%nat.
Proof.
  intros minute this'.
  apply (short_lived_token_never_reused (world (T:=CloudSpace) 1000 minute) test_client
           this' [token_post test_client] minute
           {| access_token := "a"; id_token := "t"; token_type := "Bearer";
              expires_in := 60; scope := "openid" |} eq_refl eq_refl eq_refl).
  - simpl. lia.
  - simpl. lia.
Defined.

(** The first call of a newly constructed client always exchanges,
    whatever the clock reads; the request goes to the configured auth
    URL, or to the default one when none is configured or the configured
    one is empty, and carries the configured refresh token. *)
Theorem first_call_exchanges {T : Type} (config : RackspaceSpotConfig)
    (path what namespace : string) (net : Net T) :
  let auth := authBaseUrl (constructor config) in
  (∃ rest,
     (list_with path what namespace net (constructor config)).2
     = TokenPost (auth +:+ "/oauth/token") "application/x-www-form-urlencoded"
         [("grant_type", "refresh_token"); ("client_id", PUBLIC_CLIENT_ID);
          ("refresh_token", cfg_refreshToken config)] :: rest)
  ∧ (∀ url, cfg_authBaseUrl config = val url → url ≠ EmptyString → auth = url)
  ∧ (cfg_authBaseUrl config = undefined ∨ cfg_authBaseUrl config = null
     ∨ cfg_authBaseUrl config = val EmptyString → auth = DEFAULT_AUTH_BASE_URL).
Proof.
  split; [|split].
  - assert (Hre : ¬ reusable (constructor config) (now net)).
    { intros [(token & Htoken & _) _]. discriminate Htoken. }
    destruct (list_with_sent path what namespace net (constructor config))
      as (_ & _ & _ & [[Hyes _]|[[_ Hs]|[_ Hs]]]); [done| |].
    + rewrite Hs. by eexists.
    + rewrite Hs. by eexists.
  - intros url Hurl Hne. simpl. rewrite Hurl. simpl. by rewrite decide_False.
  - simpl. intros [->|[->| ->]]; done.
Qed.

Lemma first_call_exchanges_witness :
  authBaseUrl (constructor {| cfg_refreshToken := "test-refresh-token";
                              cfg_apiBaseUrl := undefined;
                              cfg_authBaseUrl := val "https://custom-auth.example.com" |})
  = "https://custom-auth.example.com"
  ∧ authBaseUrl test_client = DEFAULT_AUTH_BASE_URL.
Proof.
  split.
  - destruct (first_call_exchanges (T:=CloudSpace)
                {| cfg_refreshToken := "test-refresh-token";
                   cfg_apiBaseUrl := undefined;
                   cfg_authBaseUrl := val "https://custom-auth.example.com" |}
                "/p" "w" "org-test" (world 0 token_401)) as (_ & Hcustom & _).
    apply Hcustom; [reflexivity | discriminate].
  - destruct (first_call_exchanges (T:=CloudSpace)
                {| cfg_refreshToken := "test-refresh-token";
                   cfg_apiBaseUrl := undefined;
                   cfg_authBaseUrl := undefined |}
                "/p" "w" "org-test" (world 0 token_401)) as (_ & _ & Hdefault).
    apply Hdefault. left. reflexivity.
Defined.

(** While the cached token can be reused, any number of list calls in
    a row exchange nothing: each sends its one GET with the same bearer
    credential, and the client is left as it was. *)
Theorem calls_reuse {T : Type} (path what namespace : string) (nets : list (Net T))
    (this : RackspaceSpotClient) :
  (∀ net, net ∈ nets → reusable this (now net)) →
  calls path what namespace nets this
  = (this,
     map (λ _, ApiGet (apiBaseUrl this) path namespace (authorization_header this)) nets).
Proof.
  induction nets as [|net nets IH]; intros Hall; simpl; [done|].
  rewrite list_with_unfold, GET_reuse by (apply Hall; left).
  assert (Hrest : ∀ net', net' ∈ nets → reusable this (now net'))
    by (intros net' Hin; apply Hall; by right).
  destruct (api_fetch net); by rewrite (IH Hrest).
Qed.

Lemma calls_reuse_witness :
  let this' := (authenticate (world (T:=CloudSpace) 1000 (token_200 "mock-id-token"))
                  test_client).1.2 in
  exchanges (calls "/apis/ngpc.rxt.io/v1/namespaces/{namespace}/cloudspaces"
               "cloudspaces" "org-test"
               [world (T:=CloudSpace) 2000 token_401; world 60000 token_401;
                world 86000000 token_401] this').2 = 0%nat.
Proof.
  intros this'.
  rewrite (calls_reuse "/apis/ngpc.rxt.io/v1/namespaces/{namespace}/cloudspaces"
             "cloudspaces" "org-test"
             [world (T:=CloudSpace) 2000 token_401; world 60000 token_401;
              world 86000000 token_401] this'); [reflexivity|].
  intros net Hnet. apply list_elem_of_In in Hnet. simpl in Hnet.
  destruct Hnet as [<-|[<-|[<-|[]]]]; (split; [by eexists | simpl; lia]).
Defined.

(** In any run of list calls, every request that leaves the process is
    either the one token request of the client (same URL, same form, so
    the refresh token goes nowhere else) or a GET on the API base URL;
    there are at most as many token exchanges as calls. *)
Theorem calls_requests {T : Type} (path what namespace : string) (nets : list (Net T))
    (this : RackspaceSpotClient) :
  (∀ rq, rq ∈ (calls path what namespace nets this).2 →
     rq = token_post this
     ∨ ∃ authorization, rq = ApiGet (apiBaseUrl this) path namespace authorization)
  ∧ (exchanges (calls path what namespace nets this).2 ≤ length nets)%nat.
Proof.
  revert this. induction nets as [|net nets IH]; intros this; simpl.
  - split; [intros rq Hrq; by apply elem_of_nil in Hrq | done].
  - pose proof (list_with_sent path what namespace net this) as (Hr & Ha & Hu & Hsent).
    destruct (list_with path what namespace net this) as [[r this'] sent].
    simpl in Hr, Ha, Hu, Hsent.
    destruct (IH this') as [IHrq IHex].
    destruct (calls path what namespace nets this') as [this'' sent']. simpl in *.
    assert (Hpost : token_post this' = token_post this).
    { unfold token_post. by rewrite Hr, Hu. }
    split.
    + intros rq Hrq. apply elem_of_app in Hrq as [Hrq|Hrq].
      * destruct Hsent as [[_ ->]|[[_ ->]|[_ ->]]];
          apply list_elem_of_In in Hrq; simpl in Hrq; intuition (subst; eauto).
      * destruct (IHrq rq Hrq) as [->|[authorization ->]].
        -- left. exact Hpost.
        -- right. rewrite Ha. by eexists.
    + rewrite exchanges_app.
      assert (Hone : (exchanges sent ≤ 1)%nat).
      { destruct Hsent as [[_ ->]|[[_ ->]|[_ ->]]]; vm_compute; lia. }
      lia.
Qed.

End ApiClientMore.

(** * Further properties of the collection loop *)

Module ExporterMore.
Import Exporter ExporterProps Accounting.

Lemma timer_step (s s' : Loop) (ev : Event) :
  step s ev = Some s' → timer s' = true.
Proof.
  destruct ev as [|pass outcome]; simpl.
  - destruct (timer s) eqn:Htimer; [|done]. intros [= <-].
    unfold collectMetrics_enter. by destruct (isCollecting s).
  - case_bool_decide; [|done]. intros [= <-].
    by destruct (timer s) eqn:Htimer.
Qed.

Lemma timer_run (evs : list Event) (s s' : Loop) :
  timer s = true → run s evs = Some s' → timer s' = true.
Proof.
  revert s. induction evs as [|ev evs IH]; intros s Htimer; simpl.
  - by intros [= <-].
  - destruct (step s ev) as [s1|] eqn:Hstep; [|done].
    apply IH. by eapply timer_step.
Qed.

(** No tick is handled before the initial collection has settled: the
    timer is installed by the first event, which can only be that
    settlement, and stays installed from then on. *)
Theorem timer_after_initial_pass (evs : list Event) (s : Loop) :
  run boot evs = Some s →
  (timer s = true ↔ evs ≠ [])
  ∧ (∀ ev rest, evs = ev :: rest → ∃ outcome, ev = Settled 0 outcome).
Proof.
  intros Hrun. destruct evs as [|ev rest].
  - injection Hrun as <-. split; [|intros ? ? [=]]. split; [discriminate | done].
  - simpl in Hrun. destruct (step boot ev) as [s1|] eqn:Hstep; [|done]. split.
    + split; [done|]. intros _.
      apply (timer_run rest s1 s); [by eapply timer_step | done].
    + intros ev' rest' [= <- <-]. destruct ev as [|pass outcome]; [done|].
      simpl in Hstep. case_bool_decide as Hin; [|done].
      apply list_elem_of_singleton in Hin as ->. by exists outcome.
Qed.

Lemma timer_after_initial_pass_witness :
  ∃ s, run boot busy_history = Some s ∧ timer s = true.
Proof.
  eexists. split; [reflexivity|].
  apply (timer_after_initial_pass busy_history _ eq_refl). discriminate.
Defined.

(** A pass that fails does not wedge the loop: when the pass in flight
    settles, with an error or without, the outcome is logged, the flag is
    cleared, and the next tick starts a new pass. *)
Theorem loop_recovers (evs : list Event) (s : Loop) (pass : nat)
    (outcome : result unit) :
  run boot evs = Some s →
  pass ∈ pending s →
  ∃ s1, step s (Settled pass outcome) = Some s1
        ∧ isCollecting s1 = false ∧ pending s1 = [] ∧ timer s1 = true
        ∧ console s1 = console s ++ [match outcome with
                                     | Ok _ => LogCollected
                                     | Err e => LogError e
                                     end]
        ∧ ∃ s2, step s1 Tick = Some s2
                ∧ isCollecting s2 = true ∧ pending s2 = [started s]
                ∧ started s2 = S (started s).
Proof.
  intros Hrun Hin.
  pose proof (guarded_run evs boot s guarded_boot Hrun) as Hg.
  destruct (step s (Settled pass outcome)) as [s1|] eqn:Hstep.
  2:{ simpl in Hstep. by rewrite bool_decide_eq_true_2 in Hstep. }
  pose proof (timer_step _ _ _ Hstep) as Htimer.
  pose proof (guarded_step _ _ _ Hg Hstep) as Hg1.
  simpl in Hstep. rewrite bool_decide_eq_true_2 in Hstep by done.
  assert (Hflag : isCollecting s1 = false)
    by (injection Hstep as <-; by destruct (timer s) eqn:?).
  assert (Hconsole : console s1 = console s ++ [match outcome with
                                                 | Ok _ => LogCollected
                                                 | Err e => LogError e
                                                 end])
    by (injection Hstep as <-; by destruct (timer s) eqn:?).
  assert (Hstarted : started s1 = started s)
    by (injection Hstep as <-; by destruct (timer s) eqn:?).
  assert (Hnone : pending s1 = []).
  { destruct Hg1 as [[Htrue _]|[_ Hnone]]; [congruence | done]. }
  exists s1. repeat (split; [done|]).
  eexists. simpl. rewrite Htimer. split; [reflexivity|].
  unfold collectMetrics_enter. rewrite Hflag. simpl.
  by rewrite Hnone, Hstarted.
Qed.

Lemma loop_recovers_witness :
  ∃ s1 s2, step boot (Settled 0 (Err {| message := "API Error" |})) = Some s1
           ∧ isCollecting s1 = false
           ∧ step s1 Tick = Some s2
           ∧ pending s2 = [1%nat].
Proof.
  destruct (loop_recovers [] boot 0 (Err {| message := "API Error" |}) eq_refl)
    as (s1 & Hstep & Hflag & _ & _ & _ & s2 & Htick & _ & Hpending & _).
  - apply list_elem_of_In. left. reflexivity.
  - exists s1, s2. split; [exact Hstep|]. split; [exact Hflag|].
    split; [exact Htick | exact Hpending].
Defined.

Lemma count_snoc {A : Type} (f : A → bool) (l : list A) (x : A) :
  length (filter (λ y, f y = true) (l ++ [x]))
  = (length (filter (λ y, f y = true) l) + (if f x then 1 else 0))%nat.
Proof.
  rewrite filter_app, length_app, filter_cons.
  destruct (f x); case_decide; done.
Qed.

Lemma accounting_step (s s' : Loop) (ev : Event) :
  guarded s → step s ev = Some s' →
  (started s' + skips s' = started s + skips s + (if is_tick ev then 1 else 0))%nat
  ∧ (finished s + length (pending s) = started s →
     finished s' + length (pending s') = started s')%nat.
Proof.
  intros Hg. destruct ev as [|pass outcome]; simpl.
  - destruct (timer s) eqn:Htimer; [|done]. intros [= <-].
    unfold collectMetrics_enter, skips, finished.
    destruct (isCollecting s) eqn:Hflag; simpl.
    + rewrite !count_snoc. simpl. split; lia.
    + rewrite length_app. simpl. split; lia.
  - case_bool_decide as Hin; [|done]. intros [= <-].
    assert (Hpending : pending s = [pass]).
    { destruct Hg as [[_ [p Hp]]|[_ Hnone]].
      - rewrite Hp in Hin. by apply list_elem_of_singleton in Hin as ->.
      - rewrite Hnone in Hin. by apply elem_of_nil in Hin. }
    assert (Hgone : filter (λ p, p ≠ pass) (pending s) = []).
    { rewrite Hpending. rewrite filter_cons_False; [done|]. intros H. by apply H. }
    unfold skips, finished.
    destruct (timer s) eqn:Htimer; simpl; rewrite Hgone, Hpending, !count_snoc;
      destruct outcome; simpl; split; lia.
Qed.

Lemma accounting_run (evs : list Event) (s s' : Loop) :
  guarded s → run s evs = Some s' →
  (started s' + skips s' = started s + skips s + ticks evs)%nat
  ∧ (finished s + length (pending s) = started s →
     finished s' + length (pending s') = started s')%nat.
Proof.
  revert s. induction evs as [|ev evs IH]; intros s Hg; simpl.
  - intros [= <-]. unfold ticks. simpl. split; [lia | done].
  - destruct (step s ev) as [s1|] eqn:Hstep; [|done]. intros Hrun.
    destruct (accounting_step s s1 ev Hg Hstep) as [Hs1 Hf1].
    destruct (IH s1 (guarded_step _ _ _ Hg Hstep) Hrun) as [Hs Hf].
    split; [|auto].
    rewrite Hs, Hs1. unfold ticks. rewrite filter_cons.
    destruct (is_tick ev); case_decide; simpl; try done; lia.
Qed.

(** Nothing is lost and nothing is queued: every tick either started a
    pass or was logged as skipped, and every pass started has either been
    logged as finished (well or badly) or is the one in flight. *)
Theorem loop_accounting (evs : list Event) (s : Loop) :
  run boot evs = Some s →
  (started s + skips s = 1 + ticks evs)%nat
  ∧ (finished s + length (pending s) = started s)%nat.
Proof.
  intros Hrun.
  destruct (accounting_run evs boot s guarded_boot Hrun) as [Hs Hf].
  split; [exact Hs | by apply Hf].
Qed.

Lemma loop_accounting_witness :
  ∃ s, run boot (busy_history ++ [Tick; Tick]) = Some s
       ∧ (started s + skips s = 1 + ticks (busy_history ++ [Tick; Tick]))%nat
       ∧ (finished s + length (pending s) = started s)%nat.
Proof.
  eexists. split; [reflexivity|].
  apply (loop_accounting (busy_history ++ [Tick; Tick])). reflexivity.
Defined.

End ExporterMore.

(** * Properties of the HTTP server *)

Module ServerProps.
Import Server.

(** The four probe paths. *)
Lemma probe_cases (pathname : string) :
  pathname ∈ ["/health"; "/healthz"; "/ready"; "/readyz"] →
  pathname = "/health" ∨ pathname = "/healthz" ∨ pathname = "/ready"
  ∨ pathname = "/readyz".
Proof. rewrite list_elem_of_In. simpl. intuition. Qed.

(** A liveness or readiness probe is answered [200 OK] whatever the
    registry holds and whether or not a collection ever succeeded,
    except when the configured metrics path is that very path: the
    metrics route is tried first and then answers in its place. *)
Theorem probes_ok_unless_shadowed (config : Config) (metrics contentType : string)
    (pathname : string) :
  pathname ∈ ["/health"; "/healthz"; "/ready"; "/readyz"] →
  (fetch config metrics contentType pathname
   = {| body := "OK"; status := 200; headers := [] |}
   ↔ pathname ≠ metricsPath config)
  ∧ (pathname = metricsPath config →
     fetch config metrics contentType pathname
     = {| body := metrics; status := 200;
          headers := [("Content-Type", contentType)] |}).
Proof.
  intros Hprobe. apply probe_cases in Hprobe. unfold fetch. split.
  - case_decide as Hpath.
    + split; [discriminate | done].
    + split; [done|]. intros _.
      destruct Hprobe as [->|[->|[->| ->]]]; reflexivity.
  - intros Hpath. by rewrite decide_True.
Qed.

Lemma probes_ok_unless_shadowed_witness :
  fetch {| metricsPath := "/metrics"; namespace := "org-test";
           scrapeIntervalSeconds := "60" |}
    "# no samples" "text/plain" "/readyz"
  = {| body := "OK"; status := 200; headers := [] |}
  ∧ fetch {| metricsPath := "/health"; namespace := "org-test";
             scrapeIntervalSeconds := "60" |}
      "# no samples" "text/plain" "/health"
    = {| body := "# no samples"; status := 200;
         headers := [("Content-Type", "text/plain")] |}.
Proof.
  split.
  - apply (probes_ok_unless_shadowed
             {| metricsPath := "/metrics"; namespace := "org-test";
                scrapeIntervalSeconds := "60" |} "# no samples" "text/plain" "/readyz").
    + apply list_elem_of_In. simpl. tauto.
    + discriminate.
  - apply (probes_ok_unless_shadowed
             {| metricsPath := "/health"; namespace := "org-test";
                scrapeIntervalSeconds := "60" |} "# no samples" "text/plain" "/health").
    + apply list_elem_of_In. simpl. tauto.
    + reflexivity.
Defined.

(** The handler answers 404 exactly on the paths that are neither the
    metrics path, nor a probe path, nor the root, and 200 on all of
    those. *)
Theorem not_found_iff (config : Config) (metrics contentType : string)
    (pathname : string) :
  (status (fetch config metrics contentType pathname) = 404
   ↔ pathname ∉ [metricsPath config; "/health"; "/healthz"; "/ready"; "/readyz"; "/"])
  ∧ (status (fetch config metrics contentType pathname) = 200
     ↔ pathname ∈ [metricsPath config; "/health"; "/healthz"; "/ready"; "/readyz"; "/"]).
Proof.
  assert (Hcases :
    (In pathname [metricsPath config; "/health"; "/healthz"; "/ready"; "/readyz"; "/"]
     ∧ status (fetch config metrics contentType pathname) = 200)
    ∨ (¬ In pathname [metricsPath config; "/health"; "/healthz"; "/ready"; "/readyz"; "/"]
       ∧ status (fetch config metrics contentType pathname) = 404)).
  { unfold fetch. simpl.
    case_decide as Hm; [left; auto|].
    destruct (bool_decide (pathname = "/health")) eqn:H1;
      [apply bool_decide_eq_true in H1; left; auto|].
    destruct (bool_decide (pathname = "/healthz")) eqn:H2;
      [apply bool_decide_eq_true in H2; left; auto 6|].
    destruct (bool_decide (pathname = "/ready")) eqn:H3;
      [apply bool_decide_eq_true in H3; left; auto 7|].
    destruct (bool_decide (pathname = "/readyz")) eqn:H4;
      [apply bool_decide_eq_true in H4; left; auto 8|].
    apply bool_decide_eq_false in H1, H2, H3, H4.
    case_decide as Hroot; [left; auto 9|].
    right. split; [|done]. intros [H|[H|[H|[H|[H|[H|[]]]]]]]; congruence. }
  rewrite !list_elem_of_In.
  destruct Hcases as [[Hin ->]|[Hout ->]]; split; split; try done.
Qed.

End ServerProps.

(** * Properties of the start-up *)

Module StartupProps.
Import Startup.

Section Numbers.

Variable Number : Type.
Variable parseInt10 : string → Number.
Variable times1000 : Number → Number.

Lemma or_string_given (variable : option string) (default : string) (value : string) :
  given variable value → or_string (getenv variable) default = value.
Proof. intros [-> Hne]. simpl. by rewrite decide_False. Qed.

Lemma or_string_not_given (variable : option string) (default : string) :
  variable = None ∨ variable = Some EmptyString →
  or_string (getenv variable) default = default.
Proof. by intros [-> | ->]. Qed.

Lemma given_or_not (variable : option string) :
  (∃ value, given variable value) ∨ variable = None ∨ variable = Some EmptyString.
Proof.
  destruct variable as [value|]; [|auto].
  destruct (decide (value = EmptyString)) as [->|Hne]; [auto|].
  left. by exists value.
Qed.

(** The process exits with status 1 before it creates anything exactly
    when the refresh token or the namespace is not set or is empty;
    otherwise the client is created without a token, with the refresh
    token given, and the collector is created for the namespace given. *)
Theorem required_settings (env : Env) :
  (start Number parseInt10 times1000 env = Exited 1
   ↔ ¬ (∃ token, given (RACKSPACE_REFRESH_TOKEN env) token)
     ∨ ¬ (∃ organization, given (RACKSPACE_NAMESPACE env) organization))
  ∧ (∀ token organization,
       given (RACKSPACE_REFRESH_TOKEN env) token →
       given (RACKSPACE_NAMESPACE env) organization →
       ∃ config client,
         start Number parseInt10 times1000 env = Started config client organization
         ∧ ApiClient.refreshToken client = token
         ∧ ApiClient.accessToken client = None).
Proof.
  assert (Hstarted : ∀ token organization,
    given (RACKSPACE_REFRESH_TOKEN env) token →
    given (RACKSPACE_NAMESPACE env) organization →
    ∃ config client,
      start Number parseInt10 times1000 env = Started config client organization
      ∧ ApiClient.refreshToken client = token
      ∧ ApiClient.accessToken client = None).
  { intros token organization Ht Hn. unfold start, falsy. simpl.
    rewrite (or_string_given _ _ _ Ht), (or_string_given _ _ _ Hn).
    destruct Ht as [_ Ht], Hn as [_ Hn].
    rewrite !bool_decide_eq_false_2 by done. simpl. eauto. }
  split; [|exact Hstarted]. split.
  - intros Hexit.
    destruct (given_or_not (RACKSPACE_REFRESH_TOKEN env)) as [[token Ht]|Ht].
    + destruct (given_or_not (RACKSPACE_NAMESPACE env)) as [[organization Hn]|Hn].
      * destruct (Hstarted token organization Ht Hn) as (config & client & Heq & _).
        rewrite Heq in Hexit. discriminate Hexit.
      * right. intros [organization [Heq Hne]]. destruct Hn as [Hn|Hn]; congruence.
    + left. intros [token [Heq Hne]]. destruct Ht as [Ht|Ht]; congruence.
  - unfold start, falsy. simpl. intros [Hno|Hno].
    + destruct (given_or_not (RACKSPACE_REFRESH_TOKEN env)) as [Ht|Ht]; [done|].
      by rewrite (or_string_not_given _ _ Ht).
    + destruct (given_or_not (RACKSPACE_NAMESPACE env)) as [Hn|Hn]; [done|].
      rewrite (or_string_not_given _ _ Hn). simpl. by rewrite orb_true_r.
Qed.

(** A base URL or a metrics path that is not set, or is set to the empty
    string, falls back to its default ([https://spot.rackspace.com],
    [https://login.spot.rackspace.com], [/metrics]); one that is set is
    used as it is. *)
Theorem settings_defaults (env : Env) (config : Config Number)
    (client : ApiClient.RackspaceSpotClient) (organization : string) :
  start Number parseInt10 times1000 env = Started config client organization →
  (∀ url, given (RACKSPACE_API_URL env) url → ApiClient.apiBaseUrl client = url)
  ∧ (RACKSPACE_API_URL env = None ∨ RACKSPACE_API_URL env = Some EmptyString →
     ApiClient.apiBaseUrl client = ApiClient.DEFAULT_API_BASE_URL)
  ∧ (∀ url, given (RACKSPACE_AUTH_URL env) url → ApiClient.authBaseUrl client = url)
  ∧ (RACKSPACE_AUTH_URL env = None ∨ RACKSPACE_AUTH_URL env = Some EmptyString →
     ApiClient.authBaseUrl client = ApiClient.DEFAULT_AUTH_BASE_URL)
  ∧ (∀ path, given (METRICS_PATH env) path → metricsPath config = path)
  ∧ (METRICS_PATH env = None ∨ METRICS_PATH env = Some EmptyString →
     metricsPath config = "/metrics").
Proof.
  unfold start. destruct (_ || _); [done|]. intros [= <- <- _]. simpl.
  repeat split.
  - intros url [-> Hne]. simpl. rewrite decide_False by done. simpl.
    by rewrite decide_False.
  - by intros [-> | ->].
  - intros url [-> Hne]. simpl. rewrite decide_False by done. simpl.
    by rewrite decide_False.
  - by intros [-> | ->].
  - intros path Hpath. by apply or_string_given.
  - intros Hpath. by apply or_string_not_given.
Qed.

End Numbers.

(** The environment of the README: the two required variables only. *)
Lemma required_settings_witness :
  ∃ config client,
    start (option Z) (λ _, None) (λ n, n)
      {| RACKSPACE_REFRESH_TOKEN := Some "your-refresh-token";
         RACKSPACE_API_URL := None; RACKSPACE_AUTH_URL := None;
         RACKSPACE_NAMESPACE := Some "org-xxxxx";
         PORT := None; METRICS_PATH := None; SCRAPE_INTERVAL := None |}
    = Started config client "org-xxxxx"
    ∧ ApiClient.refreshToken client = "your-refresh-token"
    ∧ ApiClient.accessToken client = None.
Proof.
  apply (required_settings (option Z) (λ _, None) (λ n, n)).
  - split; [reflexivity | discriminate].
  - split; [reflexivity | discriminate].
Defined.

Lemma settings_defaults_witness :
  ApiClient.apiBaseUrl
    (ApiClient.constructor
       {| ApiClient.cfg_refreshToken := "your-refresh-token";
          ApiClient.cfg_apiBaseUrl := undefined;
          ApiClient.cfg_authBaseUrl := undefined |})
  = ApiClient.DEFAULT_API_BASE_URL.
Proof.
  set (env := {| RACKSPACE_REFRESH_TOKEN := Some "your-refresh-token";
                 RACKSPACE_API_URL := Some EmptyString; RACKSPACE_AUTH_URL := None;
                 RACKSPACE_NAMESPACE := Some "org-xxxxx";
                 PORT := None; METRICS_PATH := None; SCRAPE_INTERVAL := None |}).
  destruct (settings_defaults (option Z) (λ _, None) (λ n, n) env
              (read_config (option Z) (λ _, None) (λ n, n) env)
              (ApiClient.constructor
                 {| ApiClient.cfg_refreshToken := "your-refresh-token";
                    ApiClient.cfg_apiBaseUrl := undefined;
                    ApiClient.cfg_authBaseUrl := undefined |})
              "org-xxxxx" eq_refl)
    as (_ & Hdefault & _).
  apply Hdefault. right. reflexivity.
Defined.

End StartupProps.
